(** * Enhanced video transitions: a shallow embedding of
      [enhanced_video_transitions.py] and the properties of its
      transition engine.

    Conventions of the embedding.
    - A Python [float] is a real number ([R]).  The methods are written
      with exact arithmetic; for the scalar computations whose result
      depends on the rounding of binary64 (the easing value, the kernel
      size, the whip-pan offset) there is a second definition, named
      with the suffix b64, in which every float operation is rounded to
      the nearest binary64 number.  A Python [int] is a [Z].
    - A frame (a [numpy] array of shape (height, width, channels) and
      dtype [uint8]) is a list of rows, a row a list of pixels, a pixel a
      list of samples.
    - [cv2] and [numpy] are libraries outside the program.  Their
      arithmetic entry points ([cv2.addWeighted], [np.roll], [np.hstack],
      [np.zeros] with slice assignment) are written out from their
      documentation; [cv2.resize], [cv2.GaussianBlur], [cv2.filter2D] and
      [cv2.putText] are the operations of a class [Cv2], known only by
      the shape of what they return; [cv2.resize] refuses a size that is
      not positive.
    - A [cv2.VideoCapture] is the list of frames it still has to yield, a
      [cv2.VideoWriter] the list of frames written so far. *)

From Stdlib Require Import Reals Lra Lia ZArith String Bool List.
Import ListNotations.

Open Scope R_scope.

(* ================================================================= *)
(** * Python numbers *)

Module Py.

(** [int(x)] on a float: truncation toward zero. *)
Definition int (x : R) : Z :=
  if Rle_dec 0 x then Int_part x else (- Int_part (- x))%Z.

(** Exceptions the transition code can raise. *)
Inductive exn : Type :=
| ZeroDivisionError
| Cv2Error
| ValueError
| OSError.

(** The value of a finished call. *)
Inductive value : Type :=
| None_
| Int (z : Z).

(** Computations that may raise. *)
Inductive result (A : Type) : Type :=
| Ok (a : A)
| Raise (e : exn).
Arguments Ok {A} a.
Arguments Raise {A} e.

Definition bind {A B : Type} (m : result A) (k : A -> result B) : result B :=
  match m with
  | Ok a => k a
  | Raise e => Raise e
  end.

(** [a / b] on two ints: true division, a float. *)
Definition truediv (a b : Z) : result R :=
  if (b =? 0)%Z then Raise ZeroDivisionError else Ok (IZR a / IZR b).

(** [x in xs] on strings. *)
Fixpoint str_in (x : string) (xs : list string) : bool :=
  match xs with
  | [] => false
  | y :: ys => if String.eqb x y then true else str_in x ys
  end.

End Py.

Notation "x <- m ;; k" := (Py.bind m (fun x => k))
  (at level 61, m at next level, right associativity).

(* ================================================================= *)
(** * Easing, intensity and kernel sizing *)

(** [EnhancedVideoTransitions.cosine_interpolation]. *)
Definition cosine_interpolation (progress : R) : R :=
  (1 - cos (progress * PI)) / 2.

(** [EnhancedVideoTransitions.progressive_blur_intensity]. *)
Definition progressive_blur_intensity (progress : R) : R :=
  4 * progress * (1 - progress).

(** [EnhancedVideoTransitions.motion_blur_kernel_size]. *)
Definition motion_blur_kernel_size (motion_intensity : R) : Z :=
  Z.max 3 (Py.int (motion_intensity * 30) + 1).

(** The statement [if kernel_size % 2 == 0: kernel_size += 1], shared by
    the two blur methods. *)
Definition make_odd (kernel_size : Z) : Z :=
  if (kernel_size mod 2 =? 0)%Z then (kernel_size + 1)%Z else kernel_size.

(** The kernel size [apply_progressive_blur] hands to [cv2.GaussianBlur]. *)
Definition progressive_blur_kernel (blur_intensity : R) : Z :=
  make_odd (Z.max 3 (Py.int (blur_intensity * 30) + 1)).

(** The kernel size [apply_motion_blur] builds its kernel with. *)
Definition motion_blur_kernel (motion_intensity : R) : Z :=
  make_odd (motion_blur_kernel_size motion_intensity).

(** The spec's formula for the kernel size: [max(3, floor(i*30) + 1)],
    then the next odd value when that is even. *)
Definition kernel_size_formula (intensity : R) : Z :=
  let k := Z.max 3 (Int_part (intensity * 30) + 1) in
  if Z.even k then (k + 1)%Z else k.

(* ================================================================= *)
(** * Binary64 arithmetic

    Where a property depends on how the floats are rounded, the float
    operations are read as the exact operation followed by rounding to
    the nearest binary64 number, ties to even.  A float is the real
    number it stands for.  Overflow to infinity and NaN are left out: the
    values rounded below are small. *)

Module B64.

(** [2^k]. *)
Definition pow2 (k : Z) : R := powerRZ 2 k.

(** The binade of a real number: [floor(log2 |x|)]. *)
Definition mag (x : R) : Z := Int_part (ln (Rabs x) / ln 2).

(** The exponent of the last place around [x]: 53 bits of precision,
    and never below the smallest subnormal, [2^-1074]. *)
Definition ulp_exp (x : R) : Z := Z.max (mag x - 52) (-1074).

(** The nearest integer, ties to the even one. *)
Definition rne (x : R) : Z :=
  let f := Int_part x in
  if Rlt_dec (x - IZR f) (1 / 2) then f
  else if Rlt_dec (1 / 2) (x - IZR f) then (f + 1)%Z
  else if Z.even f then f else (f + 1)%Z.

(** The binary64 number nearest to [x]. *)
Definition round (x : R) : R :=
  IZR (rne (x * pow2 (- ulp_exp x))) * pow2 (ulp_exp x).

Definition is_float (x : R) : Prop := round x = x.

(** [float(n)] of an int, and the float operations [*], [-], [/]. *)
Definition of_int (n : Z) : R := round (IZR n).
Definition mul (x y : R) : R := round (x * y).
Definition sub (x y : R) : R := round (x - y).
Definition div (x y : R) : R := round (x / y).

(** [math.pi], the binary64 number 0x1.921fb54442d18p+1. *)
Definition pi : R := 7074237752028440 / 2251799813685248.

(** [math.cos], taken to return the binary64 number nearest to the
    cosine. *)
Definition cos (x : R) : R := round (Rtrigo_def.cos x).

End B64.

(** [cosine_interpolation] in binary64:
    [(1 - math.cos(progress * math.pi)) / 2]. *)
Definition cosine_interpolation_b64 (progress : R) : R :=
  B64.div (B64.sub 1 (B64.cos (B64.mul progress B64.pi))) 2.

(** [motion_blur_kernel_size] in binary64. *)
Definition motion_blur_kernel_size_b64 (motion_intensity : R) : Z :=
  Z.max 3 (Py.int (B64.mul motion_intensity 30) + 1).

(** The kernel sizes of the two blur methods in binary64. *)
Definition progressive_blur_kernel_b64 (blur_intensity : R) : Z :=
  make_odd (Z.max 3 (Py.int (B64.mul blur_intensity 30) + 1)).

Definition motion_blur_kernel_b64 (motion_intensity : R) : Z :=
  make_odd (motion_blur_kernel_size_b64 motion_intensity).

(** The spec's formula, on the product the code computes. *)
Definition kernel_size_formula_b64 (intensity : R) : Z :=
  let k := Z.max 3 (Int_part (B64.mul intensity 30) + 1) in
  if Z.even k then (k + 1)%Z else k.

(* ================================================================= *)
(** * Frames and the image library *)

Definition Pixel : Type := list Z.
Definition Row : Type := list Pixel.
Definition Frame : Type := list Row.

(** A well-formed array of shape (h, w, c). *)
Definition has_shape (h w c : nat) (f : Frame) : Prop :=
  length f = h /\
  Forall (fun row => length row = w /\ Forall (fun px => length px = c) row) f.

(** Every sample is a [uint8]. *)
Definition valid_frame (f : Frame) : Prop :=
  Forall (Forall (Forall (fun v => (0 <= v <= 255)%Z))) f.

(** Element-wise combination of two arrays; [e] is raised when their
    lengths differ. *)
Fixpoint zip_same {A B C : Type} (e : Py.exn) (g : A -> B -> Py.result C)
    (xs : list A) (ys : list B) : Py.result (list C) :=
  match xs, ys with
  | [], [] => Py.Ok []
  | x :: xs', y :: ys' =>
      c <- g x y ;;
      cs <- zip_same e g xs' ys' ;;
      Py.Ok (c :: cs)
  | _, _ => Py.Raise e
  end.

Module cv2.

(** [cvRound]: the nearest integer, ties to the even one. *)
Definition cvRound (x : R) : Z :=
  let f := Int_part x in
  if Rlt_dec (x - IZR f) (1 / 2) then f
  else if Rlt_dec (1 / 2) (x - IZR f) then (f + 1)%Z
  else if Z.even f then f else (f + 1)%Z.

(** [saturate_cast<uchar>] on an integer. *)
Definition saturate (v : Z) : Z := Z.max 0 (Z.min 255 v).

Definition weighted_sample (alpha beta gamma : R) (a b : Z) : Z :=
  saturate (cvRound (IZR a * alpha + IZR b * beta + gamma)).

(** [cv2.addWeighted(src1, alpha, src2, beta, gamma)]:
    [dst = saturate(src1*alpha + src2*beta + gamma)] sample by sample;
    arrays of different sizes are an error. *)
Definition addWeighted (src1 : Frame) (alpha : R) (src2 : Frame)
    (beta gamma : R) : Py.result Frame :=
  zip_same Py.Cv2Error
    (zip_same Py.Cv2Error
       (zip_same Py.Cv2Error
          (fun a b => Py.Ok (weighted_sample alpha beta gamma a b))))
    src1 src2.

End cv2.

Module np.

(** A 2-D float array, as [np.zeros((rows, cols))] makes them. *)
Definition Kernel : Type := list (list R).

Definition zeros (rows cols : Z) : Kernel :=
  repeat (repeat 0 (Z.to_nat cols)) (Z.to_nat rows).

Fixpoint update {A : Type} (i : nat) (g : A -> A) (xs : list A) : list A :=
  match xs, i with
  | [], _ => []
  | x :: xs', O => g x :: xs'
  | x :: xs', S i' => x :: update i' g xs'
  end.

(** [kernel[i, :] = v]. *)
Definition set_row (kernel : Kernel) (i : nat) (v : R) : Kernel :=
  update i (map (fun _ => v)) kernel.

(** [kernel[:, j] = v]. *)
Definition set_col (kernel : Kernel) (j : nat) (v : R) : Kernel :=
  map (update j (fun _ => v)) kernel.

(** [np.roll] along one axis of length n: the element at index i moves
    to index (i + shift) mod n. *)
Definition roll_list {A : Type} (xs : list A) (shift : Z) : list A :=
  let n := length xs in
  if (Z.of_nat n =? 0)%Z then xs
  else
    let s := Z.to_nat (shift mod Z.of_nat n) in
    skipn (n - s) xs ++ firstn (n - s) xs.

(** Where index [i] of an axis of length [n] lands under a shift. *)
Definition wrap_index (n i : nat) (shift : Z) : nat :=
  Z.to_nat ((Z.of_nat i + shift) mod Z.of_nat n).

Inductive axis : Type := Axis0 | Axis1.

(** [np.roll(a, shift, axis=0)] moves rows, [axis=1] moves the pixels of
    every row. *)
Definition roll (a : Frame) (shift : Z) (ax : axis) : Frame :=
  match ax with
  | Axis0 => roll_list a shift
  | Axis1 => map (fun row => roll_list row shift) a
  end.

(** [np.hstack([a, b])]: concatenation along axis 1; the other two
    dimensions have to agree. *)
Definition channels (a : Frame) : nat := length (hd [] (hd [] a)).

Definition hstack (a b : Frame) : Py.result Frame :=
  if (channels a =? channels b)%nat
  then zip_same Py.ValueError (fun ra rb => Py.Ok (ra ++ rb)) a b
  else Py.Raise Py.ValueError.

End np.

(** The text handed to [cv2.putText]: the pieces of the f-string, with
    the values they format. *)
Inductive text_part : Type :=
| Lit (s : string)
| Upper (s : string)
| Float (x : R) (digits : nat)
| Integer (k : Z).

(** The [cv2] operations the engine uses without depending on what they
    compute, only on the size of the image they return. *)
Class Cv2 : Type := {
  (** The image [cv2.resize(frame, (width, height))] gives for a positive
      size *)
  resize : Frame -> Z -> Z -> Frame;
  (** [cv2.GaussianBlur(frame, (kw, kh), sigma)]; the kernel sizes have
      to be positive and odd. *)
  GaussianBlur : Frame -> Z -> Z -> R -> Py.result Frame;
  (** [cv2.filter2D(frame, ddepth, kernel)] *)
  filter2D : Frame -> Z -> np.Kernel -> Frame;
  (** [cv2.putText(frame, text, org, FONT_HERSHEY_SIMPLEX, scale, color,
      thickness)] *)
  putText : Frame -> list text_part -> Z * Z -> R -> Z * Z * Z -> Z -> Frame
}.

(** What is known of them: [resize] returns a three-channel image of the
    size asked for; [GaussianBlur] accepts positive odd kernel sizes;
    blurring, filtering and drawing text keep the size of the image. *)
Class Cv2Spec (lib : Cv2) : Prop := {
  resize_shape : forall f w h,
    (0 < w)%Z -> (0 < h)%Z ->
    has_shape (Z.to_nat h) (Z.to_nat w) 3 (resize f w h);
  GaussianBlur_shape : forall f kw kh sigma h w c,
    (0 < kw)%Z -> Z.odd kw = true -> (0 < kh)%Z -> Z.odd kh = true ->
    has_shape h w c f ->
    exists g, GaussianBlur f kw kh sigma = Py.Ok g /\ has_shape h w c g;
  filter2D_shape : forall f ddepth kernel h w c,
    has_shape h w c f -> has_shape h w c (filter2D f ddepth kernel);
  putText_shape : forall f text org scale color thickness h w c,
    has_shape h w c f ->
    has_shape h w c (putText f text org scale color thickness)
}.

(** [cv2.resize(frame, dsize)] as the transition loops call it, on a
    frame a capture has just returned: a size with a side that is not
    positive is refused with a [cv2.error]. *)
Definition cv2_resize {lib : Cv2} (frame : Frame) (dsize : Z * Z)
  : Py.result Frame :=
  let (width, height) := dsize in
  if ((0 <? width) && (0 <? height))%Z
  then Py.Ok (resize frame width height)
  else Py.Raise Py.Cv2Error.

(* ================================================================= *)
(** * The engine *)

(** The fields [__init__] sets. *)
Record Engine : Type := {
  output_width : Z;
  output_height : Z;
  fps : Z
}.

(** What a transition call works on: the two captures and the writer. *)
Record State : Type := {
  cap1 : list Frame;
  cap2 : list Frame;
  out : list Frame
}.

(** [cap.read()]: [(ret, frame)] and the capture afterwards. *)
Definition read (cap : list Frame) : option Frame * list Frame :=
  match cap with
  | [] => (None, [])
  | frame :: rest => (Some frame, rest)
  end.

(** [range(n)]. *)
Definition range (n : Z) : list Z := map Z.of_nat (seq 0 (Z.to_nat n)).

(** The loop the four transition methods share:
[[
    for frame_num in range(duration_frames):
        ret1, frame1 = cap1.read()
        ret2, frame2 = cap2.read()
        if not ret1 or not ret2:
            break
        ... body, ending in out.write(result_frame)
]]
    A raising body leaves the loop with its exception. *)
Fixpoint frame_loop (body : Z -> Frame -> Frame -> Py.result Frame)
    (frame_nums : list Z) (st : State) : State * Py.result unit :=
  match frame_nums with
  | [] => (st, Py.Ok tt)
  | frame_num :: rest =>
      let (ret1, c1) := read (cap1 st) in
      let (ret2, c2) := read (cap2 st) in
      match ret1, ret2 with
      | Some frame1, Some frame2 =>
          match body frame_num frame1 frame2 with
          | Py.Ok result_frame =>
              frame_loop body rest
                {| cap1 := c1; cap2 := c2; out := out st ++ [result_frame] |}
          | Py.Raise e => ({| cap1 := c1; cap2 := c2; out := out st |}, Py.Raise e)
          end
      | _, _ => ({| cap1 := c1; cap2 := c2; out := out st |}, Py.Ok tt)
      end
  end.

(** A transition method: open the captures and the writer, run the loop,
    release; there is no [return] statement, so the call yields [None]. *)
Definition run_transition (body : Z -> Frame -> Frame -> Py.result Frame)
    (video1 video2 : list Frame) (duration_frames : Z)
  : State * Py.result Py.value :=
  let (st, r) := frame_loop body (range duration_frames)
                   {| cap1 := video1; cap2 := video2; out := [] |} in
  (st, _ <- r ;; Py.Ok Py.None_).

Section Methods.

Context {lib : Cv2}.
Variable self : Engine.

Local Open Scope string_scope.

(** [enhanced_blend_frames]. *)
Definition enhanced_blend_frames (frame1 frame2 : Frame) (alpha : R)
  : Py.result Frame :=
  let smooth_alpha := cosine_interpolation alpha in
  cv2.addWeighted frame1 (1 - smooth_alpha) frame2 smooth_alpha 0.

(** [apply_progressive_blur]. *)
Definition apply_progressive_blur (frame : Frame) (blur_intensity : R)
  : Py.result Frame :=
  let kernel_size := progressive_blur_kernel blur_intensity in
  GaussianBlur frame kernel_size kernel_size 0.

(** The kernels [apply_motion_blur] builds. *)
Definition horizontal_kernel (kernel_size : Z) : np.Kernel :=
  np.set_row (np.zeros 1 kernel_size) 0 (1 / IZR kernel_size).

Definition vertical_kernel (kernel_size : Z) : np.Kernel :=
  np.set_col (np.zeros kernel_size 1) 0 (1 / IZR kernel_size).

(** [apply_motion_blur]. *)
Definition apply_motion_blur (frame : Frame) (motion_intensity : R)
    (direction : string) : Frame :=
  let kernel_size := motion_blur_kernel motion_intensity in
  if Py.str_in direction ["left"; "right"; "horizontal"] then
    filter2D frame (-1) (horizontal_kernel kernel_size)
  else if Py.str_in direction ["up"; "down"; "vertical"] then
    filter2D frame (-1) (vertical_kernel kernel_size)
  else frame.

Definition white : Z * Z * Z := (255, 255, 255)%Z.
Definition yellow : Z * Z * Z := (0, 255, 255)%Z.

(** The loop body of [create_enhanced_dissolve_transition]. *)
Definition dissolve_step (duration_frames frame_num : Z)
    (frame1 frame2 : Frame) : Py.result Frame :=
  frame1 <- cv2_resize frame1 (output_width self, output_height self) ;;
  frame2 <- cv2_resize frame2 (output_width self, output_height self) ;;
  progress <- Py.truediv frame_num (duration_frames - 1) ;;
  result_frame <- enhanced_blend_frames frame1 frame2 progress ;;
  let result_frame :=
    putText result_frame
      [Lit "Enhanced Dissolve - Progress: "; Float progress 2]
      (10, 30)%Z 0.7 white 2 in
  let result_frame :=
    putText result_frame
      [Lit "Cosine Alpha: "; Float (cosine_interpolation progress) 3]
      (10, 60)%Z 0.7 yellow 2 in
  Py.Ok result_frame.

Definition create_enhanced_dissolve_transition
    (video1 video2 : list Frame) (duration_frames : Z) :=
  run_transition (dissolve_step duration_frames) video1 video2 duration_frames.

(** The loop body of [create_progressive_blur_transition]. *)
Definition progressive_blur_step (duration_frames frame_num : Z)
    (frame1 frame2 : Frame) : Py.result Frame :=
  frame1 <- cv2_resize frame1 (output_width self, output_height self) ;;
  frame2 <- cv2_resize frame2 (output_width self, output_height self) ;;
  progress <- Py.truediv frame_num (duration_frames - 1) ;;
  let blur_intensity := progressive_blur_intensity progress in
  blurred_frame1 <- apply_progressive_blur frame1 blur_intensity ;;
  blurred_frame2 <- apply_progressive_blur frame2 blur_intensity ;;
  result_frame <- enhanced_blend_frames blurred_frame1 blurred_frame2 progress ;;
  let result_frame :=
    putText result_frame
      [Lit "Progressive Blur - Intensity: "; Float blur_intensity 3]
      (10, 30)%Z 0.7 white 2 in
  let result_frame :=
    putText result_frame
      [Lit "Kernel Size: ";
       Integer (Z.max 3 (Py.int (blur_intensity * 30) + 1))]
      (10, 60)%Z 0.7 yellow 2 in
  Py.Ok result_frame.

Definition create_progressive_blur_transition
    (video1 video2 : list Frame) (duration_frames : Z) :=
  run_transition (progressive_blur_step duration_frames)
    video1 video2 duration_frames.

(** The translation offsets of [create_whip_pan_transition]
    ("Calculate translation offset"). *)
Definition whip_pan_translate (direction : string) (progress : R)
    (blurred_frame1 blurred_frame2 : Frame) : Frame * Frame :=
  if Py.str_in direction ["left"; "right"] then
    let offset :=
      Py.int (IZR (output_width self) * progress
              * (if String.eqb direction "right" then 1 else -1)) in
    (np.roll blurred_frame1 offset np.Axis1,
     np.roll blurred_frame2 (offset - output_width self) np.Axis1)
  else
    let offset :=
      Py.int (IZR (output_height self) * progress
              * (if String.eqb direction "down" then 1 else -1)) in
    (np.roll blurred_frame1 offset np.Axis0,
     np.roll blurred_frame2 (offset - output_height self) np.Axis0).

(** The loop body of [create_whip_pan_transition]. *)
Definition whip_pan_step (direction : string) (duration_frames frame_num : Z)
    (frame1 frame2 : Frame) : Py.result Frame :=
  frame1 <- cv2_resize frame1 (output_width self, output_height self) ;;
  frame2 <- cv2_resize frame2 (output_width self, output_height self) ;;
  progress <- Py.truediv frame_num (duration_frames - 1) ;;
  let motion_intensity := 4 * progress * (1 - progress) in
  let blurred_frame1 := apply_motion_blur frame1 motion_intensity direction in
  let blurred_frame2 := apply_motion_blur frame2 motion_intensity direction in
  let (translated_frame1, translated_frame2) :=
    whip_pan_translate direction progress blurred_frame1 blurred_frame2 in
  result_frame <-
    enhanced_blend_frames translated_frame1 translated_frame2 progress ;;
  let result_frame :=
    putText result_frame
      [Lit "Whip Pan "; Upper direction; Lit " - Motion: ";
       Float motion_intensity 3]
      (10, 30)%Z 0.7 white 2 in
  let result_frame :=
    putText result_frame
      [Lit "Kernel Size: "; Integer (motion_blur_kernel_size motion_intensity)]
      (10, 60)%Z 0.7 yellow 2 in
  Py.Ok result_frame.

Definition create_whip_pan_transition
    (video1 video2 : list Frame) (direction : string) (duration_frames : Z) :=
  run_transition (whip_pan_step direction duration_frames)
    video1 video2 duration_frames.

(** The loop body of [create_comparison_demo]. *)
Definition comparison_step (duration_frames frame_num : Z)
    (frame1 frame2 : Frame) : Py.result Frame :=
  frame1 <- cv2_resize frame1 (output_width self, output_height self) ;;
  frame2 <- cv2_resize frame2 (output_width self, output_height self) ;;
  progress <- Py.truediv frame_num (duration_frames - 1) ;;
  let linear_alpha := progress in
  left_result <-
    cv2.addWeighted frame1 (1 - linear_alpha) frame2 linear_alpha 0 ;;
  right_result <- enhanced_blend_frames frame1 frame2 progress ;;
  comparison_frame <- np.hstack left_result right_result ;;
  let comparison_frame :=
    putText comparison_frame [Lit "LINEAR (Old)"] (10, 30)%Z 0.8 white 2 in
  let comparison_frame :=
    putText comparison_frame [Lit "COSINE ENHANCED (New)"]
      (output_width self + 10, 30)%Z 0.8 white 2 in
  let comparison_frame :=
    putText comparison_frame [Lit "Progress: "; Float progress 2]
      (10, output_height self - 20)%Z 0.6 yellow 2 in
  Py.Ok comparison_frame.

Definition create_comparison_demo
    (video1 video2 : list Frame) (duration_frames : Z) :=
  run_transition (comparison_step duration_frames)
    video1 video2 duration_frames.

End Methods.

(** The translation offsets of [create_whip_pan_transition] in binary64:
    [int(extent * progress * sign)] with both products rounded. *)
Definition whip_pan_offset_b64 (extent : Z) (progress : R) (sign : Z) : Z :=
  Py.int (B64.mul (B64.mul (B64.of_int extent) progress) (B64.of_int sign)).

Definition whip_pan_translate_b64 (self : Engine) (direction : string)
    (progress : R) (blurred_frame1 blurred_frame2 : Frame) : Frame * Frame :=
  if Py.str_in direction ["left"; "right"]%string then
    let offset :=
      whip_pan_offset_b64 (output_width self) progress
        (if String.eqb direction "right" then 1 else -1) in
    (np.roll blurred_frame1 offset np.Axis1,
     np.roll blurred_frame2 (offset - output_width self) np.Axis1)
  else
    let offset :=
      whip_pan_offset_b64 (output_height self) progress
        (if String.eqb direction "down" then 1 else -1) in
    (np.roll blurred_frame1 offset np.Axis0,
     np.roll blurred_frame2 (offset - output_height self) np.Axis0).

(* ================================================================= *)
(** * What a run leaves behind *)

(** The frames a loop of [duration_frames] steps gets through on two
    captures: it stops at the first step at which a capture has nothing
    left, or after the last step. *)
Definition steps_done (video1 video2 : list Frame) (duration_frames : Z) : nat :=
  Nat.min (Z.to_nat duration_frames) (Nat.min (length video1) (length video2)).

(** The reads made on each capture: one per finished step, and one more
    at the step that met the end of a stream. *)
Definition reads_made (video1 video2 : list Frame) (duration_frames : Z) : nat :=
  let n := steps_done video1 video2 duration_frames in
  if (n <? Z.to_nat duration_frames)%nat then S n else n.

(** The same count on the loop itself, given the list of its steps. *)
Definition loop_reads (frame_nums : list Z) (c1 c2 : list Frame) : nat :=
  let n := Nat.min (length frame_nums) (Nat.min (length c1) (length c2)) in
  if (n <? length frame_nums)%nat then S n else n.

(** A run that ended without an exception, having written one frame per
    finished step. *)
Definition truncated_run (video1 video2 : list Frame) (duration_frames : Z)
    (res : State * Py.result Py.value) : Prop :=
  exists frames,
    res = ({| cap1 := skipn (reads_made video1 video2 duration_frames) video1;
              cap2 := skipn (reads_made video1 video2 duration_frames) video2;
              out := frames |},
           Py.Ok Py.None_) /\
    length frames = steps_done video1 video2 duration_frames.



(** The sample [frame[y, x, k]], 0 outside the array. *)
Definition sample (frame : Frame) (y x k : nat) : Z :=
  nth k (nth x (nth y frame []) []) 0%Z.

(** The writer holds, in order, the result of the loop body on the k-th
    frame of each capture with frame number k. *)
Definition writes_step_results (body : Z -> Frame -> Frame -> Py.result Frame)
    (video1 video2 : list Frame) (duration_frames : Z)
    (res : State * Py.result Py.value) : Prop :=
  Forall2 (fun t r => body (fst t) (fst (snd t)) (snd (snd t)) = Py.Ok r)
          (combine (range duration_frames) (combine video1 video2))
          (out (fst res)).

(* ================================================================= *)
(** * The driver *)

Section Main.

Context {lib : Cv2}.

Local Open Scope string_scope.

(** What [main] leaves in the output directory: the paths written, in
    order, each with its frames. *)
Definition Outputs : Type := list (string * list Frame).

(** One transition call made by [main]; an exception of an earlier call
    has ended [main] already. *)
Definition call_transition (done : Outputs * Py.result Py.value)
    (output_path : string) (run : State * Py.result Py.value)
  : Outputs * Py.result Py.value :=
  match snd done with
  | Py.Ok _ => ((fst done ++ [(output_path, out (fst run))])%list, snd run)
  | Py.Raise _ => done
  end.

(** [main], on a file system that gives the frames of the videos that
    exist and says whether [output_dir.mkdir(exist_ok=True)] goes
    through (the directory is made, or was there already); when it does
    not, [mkdir] raises an [OSError] and [main] ends there.  The result
    tells whether the output directory exists afterwards, which files
    were written into it, and how [main] ended.  The printing is left
    out. *)
Definition main (mkdir_succeeds : bool) (files : string -> option (list Frame))
  : (bool * Outputs) * Py.result Py.value :=
  let video1_path := "input_videos/video1.mp4" in
  let video2_path := "input_videos/video2.mp4" in
  let output_dir := "enhanced_transitions_output" in
  if negb mkdir_succeeds then ((false, []), Py.Raise Py.OSError)
  else
  match files video1_path, files video2_path with
  | Some video1, Some video2 =>
      let engine := {| output_width := 1280; output_height := 720; fps := 30 |} in
      let done := ([], Py.Ok Py.None_) in
      let done :=
        call_transition done (output_dir ++ "/enhanced_dissolve_demo.mp4")
          (create_enhanced_dissolve_transition engine video1 video2 90) in
      let done :=
        call_transition done (output_dir ++ "/progressive_blur_demo.mp4")
          (create_progressive_blur_transition engine video1 video2 90) in
      let done :=
        fold_left
          (fun done direction =>
             call_transition done
               (output_dir ++ "/whip_pan_" ++ direction ++ "_demo.mp4")
               (create_whip_pan_transition engine video1 video2 direction 90))
          ["left"; "right"; "up"; "down"] done in
      let done :=
        call_transition done (output_dir ++ "/before_after_comparison.mp4")
          (create_comparison_demo engine video1 video2 90) in
      ((true, fst done), snd done)
  | _, _ => ((true, []), Py.Ok Py.None_)
  end.

End Main.

(* ================================================================= *)
(** * A small instance of the image library

    Enough of [cv2] to run the methods on concrete frames: a
    nearest-neighbour [resize] to three channels; blur, filter and text
    drawing that leave the samples as they are. *)

Module Plain.

Definition pixel3 (px : Pixel) : Pixel := firstn 3 (px ++ [0; 0; 0]%Z).

Definition resize (f : Frame) (w h : Z) : Frame :=
  map (fun y =>
         let row := nth (y * length f / Z.to_nat h) f [] in
         map (fun x => pixel3 (nth (x * length row / Z.to_nat w) row []))
             (seq 0 (Z.to_nat w)))
      (seq 0 (Z.to_nat h)).

Definition GaussianBlur (f : Frame) (kw kh : Z) (sigma : R) : Py.result Frame :=
  if ((0 <? kw)%Z && Z.odd kw && (0 <? kh)%Z && Z.odd kh)%bool
  then Py.Ok f else Py.Raise Py.Cv2Error.

Definition filter2D (f : Frame) (ddepth : Z) (kernel : np.Kernel) : Frame := f.

Definition putText (f : Frame) (text : list text_part) (org : Z * Z)
    (scale : R) (color : Z * Z * Z) (thickness : Z) : Frame := f.

End Plain.

Definition plain_cv2 : Cv2 := {|
  resize := Plain.resize;
  GaussianBlur := Plain.GaussianBlur;
  filter2D := Plain.filter2D;
  putText := Plain.putText
|}.

(* ================================================================= *)
(** * Properties of the scalar functions *)

Section Truncation.

Lemma Int_part_bounds (x : R) :
  IZR (Int_part x) <= x < IZR (Int_part x) + 1.
Proof.
  destruct (base_Int_part x) as [Hle Hgt]. split; lra.
Qed.

Lemma Int_part_unique (x : R) (k : Z) :
  IZR k <= x < IZR k + 1 -> Int_part x = k.
Proof.
  intros [Hlo Hhi]. symmetry. apply Int_part_spec. split; lra.
Qed.

Lemma Int_part_IZR (k : Z) : Int_part (IZR k) = k.
Proof. apply Int_part_unique. lra. Qed.

Lemma Int_part_mono (x y : R) : x <= y -> (Int_part x <= Int_part y)%Z.
Proof.
  intros Hxy.
  destruct (Int_part_bounds x) as [Hx _].
  destruct (Int_part_bounds y) as [_ Hy].
  assert (H : IZR (Int_part x) < IZR (Int_part y + 1)).
  { rewrite plus_IZR. lra. }
  apply lt_IZR in H. lia.
Qed.

Lemma Int_part_nonneg (x : R) : 0 <= x -> (0 <= Int_part x)%Z.
Proof.
  intros Hx. rewrite <- (Int_part_IZR 0). now apply Int_part_mono.
Qed.

Lemma int_nonneg (x : R) : 0 <= x -> Py.int x = Int_part x.
Proof.
  intros Hx. unfold Py.int. destruct (Rle_dec 0 x) as [_ | Hn]; [reflexivity | contradiction].
Qed.

Lemma int_IZR (k : Z) : Py.int (IZR k) = k.
Proof.
  unfold Py.int. destruct (Rle_dec 0 (IZR k)) as [_ | Hn].
  - apply Int_part_IZR.
  - rewrite <- opp_IZR, Int_part_IZR. lia.
Qed.

Lemma int_range (x : R) (k : Z) :
  (0 <= k)%Z -> IZR k <= x < IZR k + 1 -> Py.int x = k.
Proof.
  intros Hk [Hlo Hhi].
  assert (0 <= x) by (apply IZR_le in Hk; lra).
  rewrite int_nonneg by assumption. apply Int_part_unique. lra.
Qed.

Lemma int_mono (x y : R) : x <= y -> (Py.int x <= Py.int y)%Z.
Proof.
  intros Hxy. unfold Py.int.
  destruct (Rle_dec 0 x) as [Hx | Hx]; destruct (Rle_dec 0 y) as [Hy | Hy].
  - now apply Int_part_mono.
  - lra.
  - assert (0 <= Int_part y)%Z by now apply Int_part_nonneg.
    assert (0 <= Int_part (- x))%Z by (apply Int_part_nonneg; lra).
    lia.
  - assert (Int_part (- y) <= Int_part (- x))%Z by (apply Int_part_mono; lra).
    lia.
Qed.

End Truncation.

Section MakeOdd.

Lemma make_odd_odd (k : Z) : Z.odd (make_odd k) = true.
Proof.
  unfold make_odd. destruct (Z.eqb_spec (k mod 2) 0) as [He | Hne].
  - rewrite Z.odd_add. rewrite <- Z.negb_even.
    rewrite (Zeven_mod k), He. reflexivity.
  - rewrite <- Z.negb_even, (Zeven_mod k).
    destruct (Z.eqb_spec (k mod 2) 0); [contradiction | reflexivity].
Qed.

Lemma make_odd_bounds (k : Z) : (k <= make_odd k <= k + 1)%Z.
Proof. unfold make_odd. destruct (k mod 2 =? 0)%Z; lia. Qed.

Lemma make_odd_mono (a b : Z) : (a <= b)%Z -> (make_odd a <= make_odd b)%Z.
Proof.
  intros Hab. unfold make_odd.
  destruct (Z.eqb_spec (a mod 2) 0) as [Ha | Ha];
    destruct (Z.eqb_spec (b mod 2) 0) as [Hb | Hb]; try lia.
  assert (a <> b) by (intros ->; contradiction).
  lia.
Qed.

Lemma make_odd_even (k : Z) :
  make_odd k = if Z.even k then (k + 1)%Z else k.
Proof. unfold make_odd. now rewrite (Zeven_mod k). Qed.

End MakeOdd.

Section ScalarLemmas.

Lemma int_times30_range (x : R) :
  0 <= x <= 1 -> (0 <= Py.int (x * 30) <= 30)%Z.
Proof.
  intros [Hlo Hhi].
  assert (H0 : (Py.int 0 <= Py.int (x * 30))%Z) by (apply int_mono; lra).
  assert (H30 : (Py.int (x * 30) <= Py.int 30)%Z) by (apply int_mono; lra).
  rewrite int_IZR in H0, H30. lia.
Qed.

Lemma make_odd_upto_31 (k : Z) : (3 <= k <= 31)%Z -> (3 <= make_odd k <= 31)%Z.
Proof.
  intros Hk. unfold make_odd.
  destruct (Z.eqb_spec (k mod 2) 0) as [He | Hne]; [| lia].
  assert (k <> 31)%Z by (intros ->; discriminate He).
  lia.
Qed.

Lemma progressive_blur_intensity_range (p : R) :
  0 <= p <= 1 -> 0 <= progressive_blur_intensity p <= 1.
Proof.
  unfold progressive_blur_intensity. intros [Hlo Hhi].
  assert (Hprod : 0 <= p * (1 - p)) by (apply Rmult_le_pos; lra).
  pose proof (Rle_0_sqr (2 * p - 1)) as Hsq. unfold Rsqr in Hsq.
  split; lra.
Qed.

Lemma cosine_interpolation_mono (x y : R) :
  0 <= x -> x <= y -> y <= 1 ->
  cosine_interpolation x <= cosine_interpolation y.
Proof.
  intros Hx Hxy Hy. unfold cosine_interpolation.
  assert (HPI : 0 < PI) by apply PI_RGT_0.
  assert (Hcos : cos (y * PI) <= cos (x * PI)).
  { apply cos_decr_1; nra. }
  lra.
Qed.

Lemma cosine_interpolation_0 : cosine_interpolation 0 = 0.
Proof. unfold cosine_interpolation. rewrite Rmult_0_l, cos_0. lra. Qed.

Lemma cosine_interpolation_1 : cosine_interpolation 1 = 1.
Proof. unfold cosine_interpolation. rewrite Rmult_1_l, cos_PI. lra. Qed.

Lemma cosine_interpolation_half : cosine_interpolation (1 / 2) = 1 / 2.
Proof.
  unfold cosine_interpolation.
  replace (1 / 2 * PI) with (PI / 2) by lra.
  rewrite cos_PI2. lra.
Qed.

End ScalarLemmas.


(** C5. [progressive_blur_intensity] (the spec's [pulse_intensity]) is
    [4*progress*(1 - progress)]; it is 0 at both ends of [0, 1] and its
    largest value there, 1, is taken at 1/2. *)
Theorem progressive_blur_intensity_pulse (p : R) :
  0 <= p <= 1 ->
  progressive_blur_intensity p = 4 * p * (1 - p) /\
  progressive_blur_intensity 0 = 0 /\
  progressive_blur_intensity 1 = 0 /\
  progressive_blur_intensity (1 / 2) = 1 /\
  progressive_blur_intensity p <= progressive_blur_intensity (1 / 2).
Proof.
  intros Hp. pose proof (progressive_blur_intensity_range p Hp) as Hr.
  unfold progressive_blur_intensity in *. repeat split; lra.
Qed.

Lemma progressive_blur_intensity_pulse_witness :
  progressive_blur_intensity (1 / 4) <= progressive_blur_intensity (1 / 2).
Proof.
  apply (progressive_blur_intensity_pulse (1 / 4)). lra.
Defined.


(** C10. For an intensity in [0, 1] the kernel size [apply_progressive_blur]
    and [apply_motion_blur] use, after the evenness adjustment, lies
    between 3 and 31; so it does for the pulse intensity of every
    progress in [0, 1]. *)
Theorem blur_kernel_bounds (x : R) :
  0 <= x <= 1 ->
  (3 <= progressive_blur_kernel x <= 31)%Z /\
  (3 <= motion_blur_kernel x <= 31)%Z /\
  (3 <= progressive_blur_kernel (progressive_blur_intensity x) <= 31)%Z /\
  (3 <= motion_blur_kernel (4 * x * (1 - x)) <= 31)%Z.
Proof.
  intros Hx.
  assert (Hk : forall z, 0 <= z <= 1 ->
            (3 <= make_odd (Z.max 3 (Py.int (z * 30) + 1)) <= 31)%Z).
  { intros z Hz. apply make_odd_upto_31.
    pose proof (int_times30_range z Hz). lia. }
  pose proof (progressive_blur_intensity_range x Hx) as Hi.
  unfold progressive_blur_kernel, motion_blur_kernel, motion_blur_kernel_size.
  repeat split; apply Hk; assumption.
Qed.

Lemma blur_kernel_bounds_witness :
  (3 <= progressive_blur_kernel 1 <= 31)%Z /\ (3 <= motion_blur_kernel 1 <= 31)%Z.
Proof.
  split; apply (blur_kernel_bounds 1); lra.
Defined.

(* ================================================================= *)
(** * Properties of the image operations *)

Section ZipSame.

Context {A B C : Type}.
Variable e : Py.exn.

Lemma zip_same_fst (g : A -> B -> Py.result A) (xs : list A) (ys : list B) :
  Forall2 (fun x y => g x y = Py.Ok x) xs ys ->
  zip_same e g xs ys = Py.Ok xs.
Proof.
  induction 1 as [| x y xs ys Hxy _ IH]; simpl.
  - reflexivity.
  - rewrite Hxy. simpl. rewrite IH. reflexivity.
Qed.

Lemma zip_same_snd (g : A -> B -> Py.result B) (xs : list A) (ys : list B) :
  Forall2 (fun x y => g x y = Py.Ok y) xs ys ->
  zip_same e g xs ys = Py.Ok ys.
Proof.
  induction 1 as [| x y xs ys Hxy _ IH]; simpl.
  - reflexivity.
  - rewrite Hxy. simpl. rewrite IH. reflexivity.
Qed.

Lemma zip_same_ok (g : A -> B -> Py.result C) (P : C -> Prop)
    (xs : list A) (ys : list B) :
  Forall2 (fun x y => exists z, g x y = Py.Ok z /\ P z) xs ys ->
  exists zs, zip_same e g xs ys = Py.Ok zs /\
             length zs = length xs /\ Forall P zs.
Proof.
  induction 1 as [| x y xs ys (z & Hz & HP) _ (zs & Hzs & Hlen & Hall)]; simpl.
  - exists []. auto.
  - exists (z :: zs). rewrite Hz. simpl. rewrite Hzs. simpl.
    repeat split; auto.
Qed.

End ZipSame.

Section Pairing.

Context {A B : Type}.

Lemma Forall2_of_Forall (P : A -> Prop) (Q : B -> Prop)
    (xs : list A) (ys : list B) :
  length xs = length ys -> Forall P xs -> Forall Q ys ->
  Forall2 (fun x y => P x /\ Q y) xs ys.
Proof.
  revert ys. induction xs as [| x xs IH]; intros [| y ys] Hlen HP HQ;
    simpl in Hlen; try discriminate.
  - constructor.
  - inversion HP; inversion HQ; subst. constructor; auto.
Qed.

Lemma Forall2_with_left (P : A -> Prop) (R : A -> B -> Prop)
    (xs : list A) (ys : list B) :
  Forall P xs -> Forall2 R xs ys ->
  Forall2 (fun x y => P x /\ R x y) xs ys.
Proof.
  intros HP HR. induction HR as [| x y xs ys Hxy _ IH].
  - constructor.
  - inversion HP; subst. constructor; auto.
Qed.

Lemma Forall2_diag (R : A -> A -> Prop) (xs : list A) :
  Forall (fun x => R x x) xs -> Forall2 R xs xs.
Proof. induction 1; constructor; auto. Qed.

End Pairing.

Section Samples.

Lemma cvRound_IZR (k : Z) : cv2.cvRound (IZR k) = k.
Proof.
  unfold cv2.cvRound. rewrite Int_part_IZR.
  destruct (Rlt_dec (IZR k - IZR k) (1 / 2)) as [_ | Hn]; [reflexivity | lra].
Qed.

Lemma saturate_uint8 (v : Z) : (0 <= v <= 255)%Z -> cv2.saturate v = v.
Proof. unfold cv2.saturate. lia. Qed.

Lemma saturate_range (v : Z) : (0 <= cv2.saturate v <= 255)%Z.
Proof. unfold cv2.saturate. lia. Qed.

Lemma weighted_sample_exact (alpha beta gamma : R) (a b v : Z) :
  (0 <= v <= 255)%Z ->
  IZR a * alpha + IZR b * beta + gamma = IZR v ->
  cv2.weighted_sample alpha beta gamma a b = v.
Proof.
  intros Hv Heq. unfold cv2.weighted_sample.
  rewrite Heq, cvRound_IZR. now apply saturate_uint8.
Qed.

End Samples.

Section Shapes.

Lemma has_shape_pair (h w c : nat) (P Q : Z -> Prop) (f g : Frame) :
  has_shape h w c f -> has_shape h w c g ->
  Forall (Forall (Forall P)) f -> Forall (Forall (Forall Q)) g ->
  Forall2 (Forall2 (Forall2 (fun a b => P a /\ Q b))) f g.
Proof.
  intros [Hlf Hf] [Hlg Hg] HP HQ.
  pose proof (Forall_and Hf HP) as Hf'. pose proof (Forall_and Hg HQ) as Hg'.
  eapply Forall2_impl;
    [| apply Forall2_of_Forall;
       [exact (eq_trans Hlf (eq_sym Hlg)) | exact Hf' | exact Hg']].
  intros rf rg [[[Hwf Hcf] HPr] [[Hwg Hcg] HQr]].
  pose proof (Forall_and Hcf HPr) as Hrf. pose proof (Forall_and Hcg HQr) as Hrg.
  eapply Forall2_impl;
    [| apply Forall2_of_Forall;
       [exact (eq_trans Hwf (eq_sym Hwg)) | exact Hrf | exact Hrg]].
  intros pf pg [[Hpf HPp] [Hpg HQp]].
  apply Forall2_of_Forall;
    [exact (eq_trans Hpf (eq_sym Hpg)) | assumption | assumption].
Qed.

Lemma Forall3_True (f : Frame) : Forall (Forall (Forall (fun _ : Z => True))) f.
Proof.
  apply Forall_forall. intros r _. apply Forall_forall. intros p _.
  apply Forall_forall. auto.
Qed.

Lemma addWeighted_fst (src1 src2 : Frame) (alpha beta gamma : R) :
  Forall2 (Forall2 (Forall2 (fun a b =>
    (0 <= a <= 255)%Z /\ IZR a * alpha + IZR b * beta + gamma = IZR a)))
    src1 src2 ->
  cv2.addWeighted src1 alpha src2 beta gamma = Py.Ok src1.
Proof.
  intros H. unfold cv2.addWeighted.
  apply zip_same_fst. eapply Forall2_impl; [| exact H].
  intros r1 r2 Hr. apply zip_same_fst. eapply Forall2_impl; [| exact Hr].
  intros p1 p2 Hp. apply zip_same_fst. eapply Forall2_impl; [| exact Hp].
  intros a b [Ha Heq]. simpl. f_equal. now apply weighted_sample_exact.
Qed.

Lemma addWeighted_snd (src1 src2 : Frame) (alpha beta gamma : R) :
  Forall2 (Forall2 (Forall2 (fun a b =>
    (0 <= b <= 255)%Z /\ IZR a * alpha + IZR b * beta + gamma = IZR b)))
    src1 src2 ->
  cv2.addWeighted src1 alpha src2 beta gamma = Py.Ok src2.
Proof.
  intros H. unfold cv2.addWeighted.
  apply zip_same_snd. eapply Forall2_impl; [| exact H].
  intros r1 r2 Hr. apply zip_same_snd. eapply Forall2_impl; [| exact Hr].
  intros p1 p2 Hp. apply zip_same_snd. eapply Forall2_impl; [| exact Hp].
  intros a b [Hb Heq]. simpl. f_equal. now apply weighted_sample_exact.
Qed.

Lemma addWeighted_shape (h w c : nat) (src1 src2 : Frame) (alpha beta gamma : R) :
  has_shape h w c src1 -> has_shape h w c src2 ->
  exists dst, cv2.addWeighted src1 alpha src2 beta gamma = Py.Ok dst /\
              has_shape h w c dst /\ valid_frame dst.
Proof.
  intros H1 H2.
  pose proof (has_shape_pair h w c _ _ src1 src2 H1 H2
                (Forall3_True src1) (Forall3_True src2)) as Hpair.
  destruct H1 as [Hl1 Hr1]. unfold cv2.addWeighted.
  destruct (zip_same_ok Py.Cv2Error
              (zip_same Py.Cv2Error (zip_same Py.Cv2Error
                 (fun a b => Py.Ok (cv2.weighted_sample alpha beta gamma a b))))
              (fun row => (length row = w /\ Forall (fun px => length px = c) row)
                          /\ Forall (Forall (fun v => (0 <= v <= 255)%Z)) row)
              src1 src2) as (dst & Hdst & Hlen & Hall).
  - assert (Hzip : Forall2 (fun r1 r2 =>
              (length r1 = w /\ Forall (fun px => length px = c) r1) /\
              Forall2 (Forall2 (fun a b => True /\ True)) r1 r2) src1 src2).
    { now apply Forall2_with_left. }
    eapply Forall2_impl; [| exact Hzip].
    intros r1 r2 [[Hw Hc] Hr].
    destruct (zip_same_ok Py.Cv2Error
                (zip_same Py.Cv2Error
                   (fun a b => Py.Ok (cv2.weighted_sample alpha beta gamma a b)))
                (fun px => length px = c /\ Forall (fun v => (0 <= v <= 255)%Z) px)
                r1 r2) as (row & Hrow & Hrlen & Hrall).
    + assert (Hzr : Forall2 (fun p1 p2 =>
                length p1 = c /\ Forall2 (fun a b => True /\ True) p1 p2) r1 r2).
      { now apply Forall2_with_left. }
      eapply Forall2_impl; [| exact Hzr].
      intros p1 p2 [Hc1 Hp].
      destruct (zip_same_ok Py.Cv2Error
                  (fun a b => Py.Ok (cv2.weighted_sample alpha beta gamma a b))
                  (fun v => (0 <= v <= 255)%Z) p1 p2) as (px & Hpx & Hplen & Hpall).
      * eapply Forall2_impl; [| exact Hp].
        intros a b _. eexists. split; [reflexivity |]. apply saturate_range.
      * exists px. repeat split; auto. exact (eq_trans Hplen Hc1).
    + exists row. split; [exact Hrow |]. split.
      * split; [exact (eq_trans Hrlen Hw) |].
        eapply Forall_impl; [| exact Hrall]. intros px [Hpc _]. exact Hpc.
      * eapply Forall_impl; [| exact Hrall]. intros px [_ Hpv]. exact Hpv.
  - exists dst. split; [exact Hdst |]. split.
    + split; [exact (eq_trans Hlen Hl1) |].
      eapply Forall_impl; [| exact Hall]. intros row [Hrow _]. exact Hrow.
    + unfold valid_frame.
      eapply Forall_impl; [| exact Hall]. intros row [_ Hv]. exact Hv.
Qed.

End Shapes.

Section Blend.

Lemma blend_same_frame (frame : Frame) (smooth_alpha : R) :
  valid_frame frame ->
  cv2.addWeighted frame (1 - smooth_alpha) frame smooth_alpha 0 = Py.Ok frame.
Proof.
  intros Hv. apply addWeighted_fst.
  apply Forall2_diag. eapply Forall_impl; [| exact Hv].
  intros row Hrow. apply Forall2_diag. eapply Forall_impl; [| exact Hrow].
  intros px Hpx. apply Forall2_diag. eapply Forall_impl; [| exact Hpx].
  intros a Ha. split; [exact Ha | ring].
Qed.

End Blend.

(** C8. Blending a valid frame with itself gives the frame back, for
    every progress in [0, 1]; blending two valid frames of one size gives
    the first at progress 0 and the second at progress 1.  In each case
    the result is the frame itself, sample for sample. *)
Theorem enhanced_blend_frames_fidelity (h w c : nat) (A B : Frame) (p : R) :
  has_shape h w c A -> has_shape h w c B ->
  valid_frame A -> valid_frame B ->
  0 <= p <= 1 ->
  enhanced_blend_frames A A p = Py.Ok A /\
  enhanced_blend_frames A B 0 = Py.Ok A /\
  enhanced_blend_frames A B 1 = Py.Ok B.
Proof.
  intros HA HB HvA HvB Hp. unfold enhanced_blend_frames. repeat split.
  - now apply blend_same_frame.
  - rewrite cosine_interpolation_0. apply addWeighted_fst.
    eapply Forall2_impl;
      [| exact (has_shape_pair h w c _ _ A B HA HB HvA (Forall3_True B))].
    intros r1 r2 Hr. eapply Forall2_impl; [| exact Hr].
    intros p1 p2 Hpx. eapply Forall2_impl; [| exact Hpx].
    intros a b [Ha _]. split; [exact Ha | ring].
  - rewrite cosine_interpolation_1. apply addWeighted_snd.
    eapply Forall2_impl;
      [| exact (has_shape_pair h w c _ _ A B HA HB (Forall3_True A) HvB)].
    intros r1 r2 Hr. eapply Forall2_impl; [| exact Hr].
    intros p1 p2 Hpx. eapply Forall2_impl; [| exact Hpx].
    intros a b [_ Hb]. split; [exact Hb | ring].
Qed.

Lemma enhanced_blend_frames_fidelity_witness :
  let A := [[[0; 128; 255]; [7; 7; 7]]]%Z in
  let B := [[[10; 20; 30]; [255; 0; 1]]]%Z in
  enhanced_blend_frames A A (1 / 2) = Py.Ok A /\
  enhanced_blend_frames A B 0 = Py.Ok A /\
  enhanced_blend_frames A B 1 = Py.Ok B.
Proof.
  intros A B.
  apply (enhanced_blend_frames_fidelity 1 2 3 A B (1 / 2)).
  - split; [reflexivity | repeat constructor].
  - split; [reflexivity | repeat constructor].
  - repeat constructor; lia.
  - repeat constructor; lia.
  - lra.
Defined.

(* ================================================================= *)
(** * Cyclic shifts *)

Section Roll.

Context {A : Type}.

Lemma roll_list_length (xs : list A) (shift : Z) :
  length (np.roll_list xs shift) = length xs.
Proof.
  unfold np.roll_list.
  destruct (Z.eqb_spec (Z.of_nat (length xs)) 0) as [_ | Hn]; [reflexivity |].
  rewrite length_app, length_skipn, length_firstn. lia.
Qed.

Lemma roll_list_Forall (P : A -> Prop) (xs : list A) (shift : Z) :
  Forall P xs -> Forall P (np.roll_list xs shift).
Proof.
  intros HP. unfold np.roll_list.
  destruct (Z.of_nat (length xs) =? 0)%Z; [exact HP |].
  set (k := (length xs - Z.to_nat (shift mod Z.of_nat (length xs)))%nat).
  rewrite <- (firstn_skipn k xs) in HP.
  apply Forall_app in HP. destruct HP as [Hfirst Hskip].
  apply Forall_app. split; assumption.
Qed.

(** The shift is toroidal: what sat at index [i] sits at
    [(i + shift) mod n] afterwards. *)
Lemma roll_list_nth (xs : list A) (shift : Z) (i : nat) (d : A) :
  (i < length xs)%nat ->
  nth (np.wrap_index (length xs) i shift) (np.roll_list xs shift) d = nth i xs d.
Proof.
  intros Hi. unfold np.roll_list, np.wrap_index.
  set (n := length xs) in *.
  destruct (Z.eqb_spec (Z.of_nat n) 0) as [Hz | Hnz]; [lia |].
  assert (Hn : (0 < Z.of_nat n)%Z) by lia.
  pose proof (Z.mod_pos_bound shift (Z.of_nat n) Hn) as Hs.
  set (s := (shift mod Z.of_nat n)%Z) in *.
  assert (Hidx : ((Z.of_nat i + shift) mod Z.of_nat n
                  = (Z.of_nat i + s) mod Z.of_nat n)%Z).
  { unfold s. now rewrite Z.add_mod_idemp_r by lia. }
  rewrite Hidx.
  destruct (Z_lt_ge_dec (Z.of_nat i + s) (Z.of_nat n)) as [Hlt | Hge].
  - rewrite Z.mod_small by lia.
    rewrite app_nth2 by (rewrite length_skipn; fold n; lia).
    rewrite length_skipn. fold n.
    rewrite nth_firstn.
    replace (Z.to_nat (Z.of_nat i + s) - (n - (n - Z.to_nat s)))%nat with i by lia.
    destruct (Nat.ltb_spec i (n - Z.to_nat s)) as [_ | Hbad]; [reflexivity | lia].
  - assert (Hm : ((Z.of_nat i + s) mod Z.of_nat n = Z.of_nat i + s - Z.of_nat n)%Z).
    { symmetry. apply (Z.mod_unique _ _ 1); lia. }
    rewrite Hm.
    rewrite app_nth1 by (rewrite length_skipn; fold n; lia).
    rewrite nth_skipn. f_equal. lia.
Qed.

Lemma roll_list_zero (xs : list A) : np.roll_list xs 0 = xs.
Proof.
  unfold np.roll_list.
  destruct (Z.eqb_spec (Z.of_nat (length xs)) 0) as [_ | Hn]; [reflexivity |].
  rewrite Z.mod_0_l by assumption. simpl.
  rewrite Nat.sub_0_r, skipn_all, firstn_all. reflexivity.
Qed.

Lemma roll_list_full (xs : list A) : np.roll_list xs (Z.of_nat (length xs)) = xs.
Proof.
  unfold np.roll_list.
  destruct (Z.eqb_spec (Z.of_nat (length xs)) 0) as [_ | Hn]; [reflexivity |].
  rewrite Z.mod_same by assumption. simpl.
  rewrite Nat.sub_0_r, skipn_all, firstn_all. reflexivity.
Qed.

End Roll.

Lemma nth_map_lt {A B : Type} (g : A -> B) (xs : list A) (i : nat)
    (da : A) (db : B) :
  (i < length xs)%nat -> nth i (map g xs) db = g (nth i xs da).
Proof.
  revert i. induction xs as [| x xs IH]; intros [| i] Hi; simpl in *;
    try lia; auto.
  apply IH. lia.
Qed.

Lemma roll_shape (h w c : nat) (f : Frame) (shift : Z) (ax : np.axis) :
  has_shape h w c f -> has_shape h w c (np.roll f shift ax).
Proof.
  intros [Hlen Hrows]. destruct ax; simpl.
  - split.
    + exact (eq_trans (roll_list_length f shift) Hlen).
    + now apply roll_list_Forall.
  - split.
    + exact (eq_trans (length_map _ f) Hlen).
    + apply Forall_map. eapply Forall_impl; [| exact Hrows].
      intros row [Hw Hc]. split.
      * exact (eq_trans (roll_list_length row shift) Hw).
      * now apply roll_list_Forall.
Qed.

(* ================================================================= *)
(** * Motion blur and the whip-pan offsets *)

Section Directions.

Local Open Scope string_scope.

Lemma str_in_In (x : string) (xs : list string) :
  Py.str_in x xs = true <-> In x xs.
Proof.
  induction xs as [| y ys IH]; simpl.
  - split; [discriminate | contradiction].
  - destruct (String.eqb_spec x y) as [-> | Hne].
    + split; auto.
    + rewrite IH. split; [auto | intros [Heq | Hin]; [congruence | exact Hin]].
Qed.

Lemma str_in_not_In (x : string) (xs : list string) :
  Py.str_in x xs = false <-> ~ In x xs.
Proof.
  rewrite <- str_in_In. destruct (Py.str_in x xs); split; congruence.
Qed.




Lemma progressive_blur_kernel_ge_3 (x : R) :
  (3 <= progressive_blur_kernel x)%Z /\ Z.odd (progressive_blur_kernel x) = true.
Proof.
  unfold progressive_blur_kernel. split.
  - pose proof (make_odd_bounds (Z.max 3 (Py.int (x * 30) + 1))). lia.
  - apply make_odd_odd.
Qed.

Lemma int_negative (x : R) (k : Z) :
  (k <= 0)%Z -> IZR k - 1 < x <= IZR k -> Py.int x = k.
Proof.
  intros Hk [Hlo Hhi]. unfold Py.int.
  destruct (Rle_dec 0 x) as [Hx | Hx].
  - assert (Hk0 : IZR k <= 0) by (now apply IZR_le).
    assert (x = 0) by lra. assert (Hk' : IZR k = 0) by lra.
    apply eq_IZR in Hk'. subst. apply Int_part_IZR.
  - rewrite (Int_part_unique (- x) (- k)); [lia |].
    rewrite opp_IZR. lra.
Qed.

End Directions.





(* ================================================================= *)
(** * The instance [Plain] satisfies the interface *)

Section PlainInstance.

Lemma pixel3_length (px : Pixel) : length (Plain.pixel3 px) = 3%nat.
Proof.
  unfold Plain.pixel3. rewrite length_firstn, length_app.
  change (length [0; 0; 0]%Z) with 3%nat. lia.
Qed.

Lemma Plain_resize_shape (f : Frame) (w h : Z) :
  (0 < w)%Z -> (0 < h)%Z ->
  has_shape (Z.to_nat h) (Z.to_nat w) 3 (Plain.resize f w h).
Proof.
  intros _ _. unfold Plain.resize. split.
  - rewrite length_map. apply length_seq.
  - apply Forall_map, Forall_forall. intros y _. split.
    + rewrite length_map. apply length_seq.
    + apply Forall_map, Forall_forall. intros x _. apply pixel3_length.
Qed.

Lemma Plain_GaussianBlur_shape (f : Frame) (kw kh : Z) (sigma : R) (h w c : nat) :
  (0 < kw)%Z -> Z.odd kw = true -> (0 < kh)%Z -> Z.odd kh = true ->
  has_shape h w c f ->
  exists g, Plain.GaussianBlur f kw kh sigma = Py.Ok g /\ has_shape h w c g.
Proof.
  intros Hkw Hokw Hkh Hokh Hf. exists f. split; [| exact Hf].
  unfold Plain.GaussianBlur. rewrite Hokw, Hokh.
  apply Z.ltb_lt in Hkw, Hkh. rewrite Hkw, Hkh. reflexivity.
Qed.

End PlainInstance.

Lemma plain_cv2_spec : Cv2Spec plain_cv2.
Proof.
  constructor.
  - exact Plain_resize_shape.
  - exact Plain_GaussianBlur_shape.
  - intros f ddepth kernel h w c Hf. exact Hf.
  - intros f text org scale color thickness h w c Hf. exact Hf.
Qed.


(* ================================================================= *)
(** * The frame loop *)

Section Loop.

Variable body : Z -> Frame -> Frame -> Py.result Frame.

Lemma skipn_1_read (cap : list Frame) : snd (read cap) = skipn 1 cap.
Proof. destruct cap; reflexivity. Qed.

(** With a body that does not raise, the loop ends normally; it has
    written the body's result for every step that found a frame in both
    captures, and nothing else. *)
Lemma frame_loop_ok (frame_nums : list Z) :
  (forall i f1 f2, In i frame_nums -> exists r, body i f1 f2 = Py.Ok r) ->
  forall st, exists frames,
    frame_loop body frame_nums st
    = ({| cap1 := skipn (loop_reads frame_nums (cap1 st) (cap2 st)) (cap1 st);
          cap2 := skipn (loop_reads frame_nums (cap1 st) (cap2 st)) (cap2 st);
          out := out st ++ frames |}, Py.Ok tt) /\
    Forall2 (fun t r => body (fst t) (fst (snd t)) (snd (snd t)) = Py.Ok r)
            (combine frame_nums (combine (cap1 st) (cap2 st))) frames.
Proof.
  induction frame_nums as [| i rest IH]; intros Hbody [c1 c2 o].
  - exists []. simpl. rewrite app_nil_r. split; [reflexivity | constructor].
  - destruct c1 as [| f1 r1]; [| destruct c2 as [| f2 r2]].
    + exists []. split; [| constructor].
      unfold loop_reads. simpl. rewrite app_nil_r.
      destruct c2; reflexivity.
    + exists []. split; [| constructor].
      unfold loop_reads. simpl. rewrite app_nil_r. reflexivity.
    + destruct (Hbody i f1 f2 (or_introl eq_refl)) as (r & Hr).
      destruct (IH (fun j g1 g2 Hj => Hbody j g1 g2 (or_intror Hj))
                   {| cap1 := r1; cap2 := r2; out := o ++ [r] |})
        as (frames & Hrun & Hall).
      exists (r :: frames). split.
      * cbn [frame_loop read cap1 cap2 out]. rewrite Hr, Hrun.
        cbn [cap1 cap2 out]. rewrite <- app_assoc. simpl.
        f_equal. unfold loop_reads. cbn [length].
        rewrite <- !Nat.succ_min_distr.
        change (S ?a <? S ?b)%nat with (a <? b)%nat.
        destruct (_ <? _)%nat; reflexivity.
      * simpl. constructor; [exact Hr | exact Hall].
Qed.

Lemma range_length (n : Z) : length (range n) = Z.to_nat n.
Proof. unfold range. now rewrite length_map, length_seq. Qed.

Lemma run_transition_ok (video1 video2 : list Frame) (duration_frames : Z) :
  (forall i f1 f2, exists r, body i f1 f2 = Py.Ok r) ->
  truncated_run video1 video2 duration_frames
    (run_transition body video1 video2 duration_frames).
Proof.
  intros Hbody. unfold run_transition.
  destruct (frame_loop_ok (range duration_frames)
              (fun i f1 f2 _ => Hbody i f1 f2)
              {| cap1 := video1; cap2 := video2; out := [] |})
    as (frames & Hrun & Hall).
  rewrite Hrun. cbn [cap1 cap2 out Py.bind app].
  exists frames. split.
  - unfold reads_made, steps_done, loop_reads. now rewrite range_length.
  - apply Forall2_length in Hall. rewrite <- Hall.
    unfold steps_done. now rewrite !length_combine, range_length.
Qed.


End Loop.

Lemma cv2_resize_refused {lib : Cv2} (frame : Frame) (width height : Z) :
  (width <= 0)%Z \/ (height <= 0)%Z ->
  cv2_resize frame (width, height) = Py.Raise Py.Cv2Error.
Proof.
  intros Hsize. unfold cv2_resize.
  destruct (Z.ltb_spec 0 width); [| reflexivity].
  destruct (Z.ltb_spec 0 height); [lia | reflexivity].
Qed.

(* ================================================================= *)
(** * The four loop bodies *)

Section Bodies.

Context {lib : Cv2} {laws : Cv2Spec lib}.
Variable self : Engine.
Hypothesis width_pos : (0 < output_width self)%Z.
Hypothesis height_pos : (0 < output_height self)%Z.

Local Abbreviation H := (Z.to_nat (output_height self)).
Local Abbreviation W := (Z.to_nat (output_width self)).

Lemma resized_shape (frame : Frame) :
  has_shape H W 3 (resize frame (output_width self) (output_height self)).
Proof. now apply resize_shape. Qed.

Lemma cv2_resize_ok (frame : Frame) :
  cv2_resize frame (output_width self, output_height self)
  = Py.Ok (resize frame (output_width self) (output_height self)).
Proof.
  unfold cv2_resize.
  destruct (Z.ltb_spec 0 (output_width self)); [| lia].
  destruct (Z.ltb_spec 0 (output_height self)); [| lia].
  reflexivity.
Qed.

Lemma truediv_ok (a b : Z) : b <> 0%Z -> Py.truediv a b = Py.Ok (IZR a / IZR b).
Proof.
  intros Hb. unfold Py.truediv.
  destruct (Z.eqb_spec b 0); [contradiction | reflexivity].
Qed.

Lemma blend_ok (h w c : nat) (frame1 frame2 : Frame) (alpha : R) :
  has_shape h w c frame1 -> has_shape h w c frame2 ->
  exists r, enhanced_blend_frames frame1 frame2 alpha = Py.Ok r /\
            has_shape h w c r.
Proof.
  intros H1 H2. unfold enhanced_blend_frames.
  destruct (addWeighted_shape h w c frame1 frame2
              (1 - cosine_interpolation alpha) (cosine_interpolation alpha) 0
              H1 H2) as (r & Hr & Hs & _).
  exists r. auto.
Qed.

Lemma apply_progressive_blur_ok (h w c : nat) (frame : Frame) (intensity : R) :
  has_shape h w c frame ->
  exists g, apply_progressive_blur frame intensity = Py.Ok g /\ has_shape h w c g.
Proof.
  intros Hf. unfold apply_progressive_blur.
  destruct (progressive_blur_kernel_ge_3 intensity) as [Hge Hodd].
  apply GaussianBlur_shape; try assumption; lia.
Qed.

Lemma apply_motion_blur_shape (h w c : nat) (frame : Frame) (intensity : R)
    (direction : string) :
  has_shape h w c frame ->
  has_shape h w c (apply_motion_blur frame intensity direction).
Proof.
  intros Hf. unfold apply_motion_blur.
  destruct (Py.str_in direction _); [now apply filter2D_shape |].
  destruct (Py.str_in direction _); [now apply filter2D_shape | exact Hf].
Qed.

Lemma whip_pan_translate_shape (h w c : nat) (direction : string) (progress : R)
    (b1 b2 : Frame) :
  has_shape h w c b1 -> has_shape h w c b2 ->
  has_shape h w c (fst (whip_pan_translate self direction progress b1 b2)) /\
  has_shape h w c (snd (whip_pan_translate self direction progress b1 b2)).
Proof.
  intros H1 H2. unfold whip_pan_translate.
  destruct (Py.str_in direction _); cbn [fst snd]; split; now apply roll_shape.
Qed.

Lemma hstack_ok (h w c : nat) (a b : Frame) :
  has_shape h w c a -> has_shape h w c b -> exists r, np.hstack a b = Py.Ok r.
Proof.
  intros [Hla Ha] [Hlb Hb]. unfold np.hstack.
  assert (Hch : np.channels a = np.channels b).
  { unfold np.channels.
    destruct a as [| ra a']; destruct b as [| rb b']; simpl in *;
      try reflexivity; try lia.
    inversion Ha as [| ? ? [Hwa Hca] _]; inversion Hb as [| ? ? [Hwb Hcb] _]; subst.
    destruct ra as [| pa ra']; destruct rb as [| pb rb']; simpl in *;
      try reflexivity; try lia.
    inversion Hca; inversion Hcb; subst. lia. }
  rewrite Hch, Nat.eqb_refl.
  destruct (zip_same_ok Py.ValueError
              (fun ra rb : Row => Py.Ok (ra ++ rb)) (fun _ => True) a b)
    as (r & Hr & _).
  - eapply Forall2_impl;
      [| apply (Forall2_of_Forall (fun _ => True) (fun _ => True));
         [exact (eq_trans Hla (eq_sym Hlb))
         | apply Forall_forall; auto | apply Forall_forall; auto]].
    intros ra rb _. eexists. split; [reflexivity | exact I].
  - exists r. exact Hr.
Qed.

Lemma dissolve_step_ok (duration_frames frame_num : Z) (frame1 frame2 : Frame) :
  duration_frames <> 1%Z ->
  exists r, dissolve_step self duration_frames frame_num frame1 frame2 = Py.Ok r.
Proof.
  intros Hd. unfold dissolve_step.
  rewrite !cv2_resize_ok. cbn [Py.bind].
  rewrite truediv_ok by lia. cbn [Py.bind].
  destruct (blend_ok H W 3 _ _ (IZR frame_num / IZR (duration_frames - 1))
              (resized_shape frame1) (resized_shape frame2)) as (r & Hr & _).
  rewrite Hr. cbn [Py.bind]. eexists. reflexivity.
Qed.

Lemma progressive_blur_step_ok (duration_frames frame_num : Z)
    (frame1 frame2 : Frame) :
  duration_frames <> 1%Z ->
  exists r,
    progressive_blur_step self duration_frames frame_num frame1 frame2 = Py.Ok r.
Proof.
  intros Hd. unfold progressive_blur_step.
  rewrite !cv2_resize_ok. cbn [Py.bind].
  rewrite truediv_ok by lia. cbn [Py.bind].
  set (progress := IZR frame_num / IZR (duration_frames - 1)).
  destruct (apply_progressive_blur_ok H W 3 _ (progressive_blur_intensity progress)
              (resized_shape frame1)) as (g1 & Hg1 & Hs1).
  destruct (apply_progressive_blur_ok H W 3 _ (progressive_blur_intensity progress)
              (resized_shape frame2)) as (g2 & Hg2 & Hs2).
  rewrite Hg1. cbn [Py.bind]. rewrite Hg2. cbn [Py.bind].
  destruct (blend_ok H W 3 g1 g2 progress Hs1 Hs2) as (r & Hr & _).
  rewrite Hr. cbn [Py.bind]. eexists. reflexivity.
Qed.

Lemma whip_pan_step_ok (direction : string) (duration_frames frame_num : Z)
    (frame1 frame2 : Frame) :
  duration_frames <> 1%Z ->
  exists r,
    whip_pan_step self direction duration_frames frame_num frame1 frame2 = Py.Ok r.
Proof.
  intros Hd. unfold whip_pan_step.
  rewrite !cv2_resize_ok. cbn [Py.bind].
  rewrite truediv_ok by lia. cbn [Py.bind].
  set (progress := IZR frame_num / IZR (duration_frames - 1)).
  set (b1 := apply_motion_blur _ _ _). set (b2 := apply_motion_blur _ _ _).
  destruct (whip_pan_translate_shape H W 3 direction progress b1 b2)
    as [Hs1 Hs2].
  { apply apply_motion_blur_shape, resized_shape. }
  { apply apply_motion_blur_shape, resized_shape. }
  destruct (whip_pan_translate self direction progress b1 b2) as [t1 t2].
  cbn [fst snd] in Hs1, Hs2.
  destruct (blend_ok H W 3 t1 t2 progress Hs1 Hs2) as (r & Hr & _).
  rewrite Hr. cbn [Py.bind]. eexists. reflexivity.
Qed.

Lemma comparison_step_ok (duration_frames frame_num : Z) (frame1 frame2 : Frame) :
  duration_frames <> 1%Z ->
  exists r, comparison_step self duration_frames frame_num frame1 frame2 = Py.Ok r.
Proof.
  intros Hd. unfold comparison_step.
  rewrite !cv2_resize_ok. cbn [Py.bind].
  rewrite truediv_ok by lia. cbn [Py.bind].
  set (progress := IZR frame_num / IZR (duration_frames - 1)).
  destruct (addWeighted_shape H W 3 _ _ (1 - progress) progress 0
              (resized_shape frame1) (resized_shape frame2))
    as (left_result & Hl & Hsl & _).
  rewrite Hl. cbn [Py.bind].
  destruct (blend_ok H W 3 _ _ progress
              (resized_shape frame1) (resized_shape frame2))
    as (right_result & Hr & Hsr).
  rewrite Hr. cbn [Py.bind].
  destruct (hstack_ok H W 3 left_result right_result Hsl Hsr) as (cmp & Hc).
  rewrite Hc. cbn [Py.bind]. eexists. reflexivity.
Qed.

End Bodies.

(* ================================================================= *)
(** * The transition methods *)


(** C9. Each of the four transition loops stops at the first step at
    which a capture has no frame left, or after [duration_frames] steps:
    the call then ends without an exception, the writer holds one frame
    per finished step and none for the step that met the end of a
    stream, although that step did read from both captures. *)
Theorem transition_stops_at_end_of_stream {lib : Cv2} {laws : Cv2Spec lib}
    (self : Engine)
    (video1 video2 : list Frame) (direction : string) (duration_frames : Z) :
  (0 < output_width self)%Z -> (0 < output_height self)%Z ->
  duration_frames <> 1%Z ->
  truncated_run video1 video2 duration_frames
    (create_enhanced_dissolve_transition self video1 video2 duration_frames) /\
  truncated_run video1 video2 duration_frames
    (create_progressive_blur_transition self video1 video2 duration_frames) /\
  truncated_run video1 video2 duration_frames
    (create_whip_pan_transition self video1 video2 direction duration_frames) /\
  truncated_run video1 video2 duration_frames
    (create_comparison_demo self video1 video2 duration_frames).
Proof.
  intros HW HH Hd.
  split; [| split; [| split]]; apply run_transition_ok; intros i f1 f2.
  - now apply dissolve_step_ok.
  - now apply progressive_blur_step_ok.
  - now apply whip_pan_step_ok.
  - now apply comparison_step_ok.
Qed.

Lemma transition_stops_at_end_of_stream_witness :
  let self := {| output_width := 2; output_height := 1; fps := 30 |} in
  let black := [[[0; 0; 0]; [0; 0; 0]]]%Z in
  let white := [[[255; 255; 255]; [255; 255; 255]]]%Z in
  truncated_run [black; black; black] [white] 3
    (create_whip_pan_transition (lib := plain_cv2) self
       [black; black; black] [white] "left" 3).
Proof.
  intros self black white.
  apply (transition_stops_at_end_of_stream (laws := plain_cv2_spec) self
           [black; black; black] [white] "left" 3); simpl; lia.
Defined.







(* ================================================================= *)
(** * Further properties of the sizing functions *)

Lemma int_below (x : R) (k : Z) : (0 < k)%Z -> x < IZR k -> (Py.int x < k)%Z.
Proof.
  intros Hk Hx. unfold Py.int. destruct (Rle_dec 0 x) as [H0 | H0].
  - destruct (Int_part_bounds x) as [Hlo _].
    apply lt_IZR. lra.
  - assert (0 <= Int_part (- x))%Z by (apply Int_part_nonneg; lra).
    lia.
Qed.

Lemma int_at_least (x : R) (k : Z) : IZR k <= x -> (k <= Py.int x)%Z.
Proof.
  intros Hx. rewrite <- (int_IZR k). now apply int_mono.
Qed.

(** X3. Both blur methods use the smallest kernel, 3, exactly for the
    intensities below 1/10 (zero and negative ones included, so the blur
    is never skipped); from 1/10 on the kernel is at least 5. *)
Theorem smallest_kernel_below_tenth (x : R) :
  (x < 1 / 10 ->
     progressive_blur_kernel x = 3%Z /\ motion_blur_kernel x = 3%Z) /\
  (1 / 10 <= x ->
     (5 <= progressive_blur_kernel x)%Z /\ (5 <= motion_blur_kernel x)%Z).
Proof.
  unfold progressive_blur_kernel, motion_blur_kernel, motion_blur_kernel_size.
  split.
  - intros Hx.
    assert (Hi : (Py.int (x * 30) < 3)%Z) by (apply int_below; [lia | lra]).
    replace (Z.max 3 (Py.int (x * 30) + 1)) with 3%Z by lia.
    split; reflexivity.
  - intros Hx.
    assert (Hi : (3 <= Py.int (x * 30))%Z) by (apply int_at_least; lra).
    set (k := Z.max 3 (Py.int (x * 30) + 1)).
    assert (Hk : (4 <= k)%Z) by (unfold k; lia).
    pose proof (make_odd_bounds k) as Hb. pose proof (make_odd_odd k) as Ho.
    assert (make_odd k <> 4%Z) by (intros E; rewrite E in Ho; discriminate Ho).
    split; lia.
Qed.

Lemma smallest_kernel_below_tenth_witness :
  progressive_blur_kernel 0 = 3%Z /\ motion_blur_kernel 0 = 3%Z.
Proof.
  apply (smallest_kernel_below_tenth 0). lra.
Defined.


(** X5. In a loop of [duration_frames >= 2] steps the division
    [frame_num / (duration_frames - 1)] never raises; the progress it
    gives lies in [0, 1], is 0 exactly at the first step and 1 exactly at
    the last, and grows with the frame number. *)
Theorem progress_of_step (duration_frames i j : Z) :
  (2 <= duration_frames)%Z ->
  (0 <= i < duration_frames)%Z -> (0 <= j < duration_frames)%Z ->
  exists p q,
    Py.truediv i (duration_frames - 1) = Py.Ok p /\
    Py.truediv j (duration_frames - 1) = Py.Ok q /\
    0 <= p <= 1 /\
    (p = 0 <-> i = 0%Z) /\
    (p = 1 <-> i = (duration_frames - 1)%Z) /\
    ((i < j)%Z -> p < q).
Proof.
  intros Hd Hi Hj.
  exists (IZR i / IZR (duration_frames - 1)),
         (IZR j / IZR (duration_frames - 1)).
  assert (Hpos : 0 < IZR (duration_frames - 1)) by (apply IZR_lt; lia).
  assert (Hi0 : 0 <= IZR i) by (apply IZR_le; lia).
  assert (Hi1 : IZR i <= IZR (duration_frames - 1)) by (apply IZR_le; lia).
  assert (Hinv : 0 < / IZR (duration_frames - 1)) by now apply Rinv_0_lt_compat.
  unfold Py.truediv.
  destruct (Z.eqb_spec (duration_frames - 1) 0) as [He | _]; [lia |].
  split; [reflexivity |]. split; [reflexivity |].
  unfold Rdiv. split; [| split; [| split]].
  - split.
    + now apply Rmult_le_pos; [| apply Rlt_le].
    + apply (Rmult_le_reg_r (IZR (duration_frames - 1))); [exact Hpos |].
      rewrite Rmult_assoc, Rinv_l by lra. lra.
  - split.
    + intros Hp. apply Rmult_integral in Hp. destruct Hp as [Hp | Hp]; [| lra].
      now apply eq_IZR.
    + intros ->. lra.
  - split.
    + intros Hp. apply eq_IZR.
      apply (Rmult_eq_reg_r (/ IZR (duration_frames - 1))); [| lra].
      rewrite Hp. rewrite Rinv_r by lra. reflexivity.
    + intros ->. apply Rinv_r. lra.
  - intros Hij. apply Rmult_lt_compat_r; [exact Hinv |]. now apply IZR_lt.
Qed.

Lemma progress_of_step_witness :
  exists p q,
    Py.truediv 0 (90 - 1) = Py.Ok p /\ Py.truediv 89 (90 - 1) = Py.Ok q /\
    0 <= p <= 1 /\ (p = 0 <-> 0%Z = 0%Z) /\ (p = 1 <-> 0%Z = (90 - 1)%Z) /\
    ((0 < 89)%Z -> p < q).
Proof.
  apply (progress_of_step 90 0 89); lia.
Defined.

(* ================================================================= *)
(** * Further properties of blending *)

Section ZipSameErrors.

Context {A B C : Type}.
Variable e : Py.exn.
Variable g : A -> B -> Py.result C.
Hypothesis g_raises_e : forall x y e', g x y = Py.Raise e' -> e' = e.

Lemma zip_same_raises_only (xs : list A) (ys : list B) (e' : Py.exn) :
  zip_same e g xs ys = Py.Raise e' -> e' = e.
Proof.
  revert ys. induction xs as [| x xs IH]; intros [| y ys]; simpl;
    try (intros E; inversion E; reflexivity); try discriminate.
  destruct (g x y) as [c |e0] eqn:Hg; simpl.
  - destruct (zip_same e g xs ys) as [cs | e1] eqn:Hz; simpl.
    + discriminate.
    + intros E; inversion E; subst. now apply (IH ys).
  - intros E; inversion E; subst. now apply (g_raises_e x y).
Qed.

Lemma zip_same_length_mismatch (xs : list A) (ys : list B) :
  length xs <> length ys -> zip_same e g xs ys = Py.Raise e.
Proof.
  revert ys. induction xs as [| x xs IH]; intros [| y ys] Hlen; simpl in *;
    try reflexivity; try lia.
  destruct (g x y) as [c | e0] eqn:Hg; simpl.
  - rewrite IH by lia. reflexivity.
  - f_equal. now apply (g_raises_e x y).
Qed.

Lemma zip_same_head_raises (x : A) (y : B) (xs : list A) (ys : list B) :
  g x y = Py.Raise e -> zip_same e g (x :: xs) (y :: ys) = Py.Raise e.
Proof. intros Hg. simpl. rewrite Hg. reflexivity. Qed.

End ZipSameErrors.

Section ZipSameNth.

Context {A B C : Type}.

Lemma zip_same_nth (e : Py.exn) (g : A -> B -> Py.result C)
    (xs : list A) (ys : list B) (zs : list C) (i : nat) (dx : A) (dy : B) (dz : C) :
  zip_same e g xs ys = Py.Ok zs -> (i < length xs)%nat ->
  g (nth i xs dx) (nth i ys dy) = Py.Ok (nth i zs dz).
Proof.
  revert ys zs i. induction xs as [| x xs IH]; intros [| y ys] zs i Hz Hi;
    simpl in *; try lia; try discriminate.
  destruct (g x y) as [c | e0] eqn:Hg; simpl in Hz; [| discriminate].
  destruct (zip_same e g xs ys) as [cs | e1] eqn:Hzs; simpl in Hz; [| discriminate].
  inversion Hz; subst. destruct i as [| i]; simpl.
  - exact Hg.
  - apply (IH ys cs i Hzs). lia.
Qed.

End ZipSameNth.

Section BlendBounds.

Lemma cvRound_between (x : R) (m M : Z) :
  IZR m <= x <= IZR M -> (m <= cv2.cvRound x <= M)%Z.
Proof.
  intros [Hm HM].
  assert (Hlo : (m <= Int_part x)%Z).
  { rewrite <- (Int_part_IZR m). now apply Int_part_mono. }
  destruct (Int_part_bounds x) as [Hf1 Hf2].
  assert (Hhi : (Int_part x <= M)%Z).
  { rewrite <- (Int_part_IZR M). now apply Int_part_mono. }
  destruct (Req_dec x (IZR M)) as [-> | Hne].
  - rewrite cvRound_IZR. lia.
  - assert (Hlt : (Int_part x < M)%Z).
    { apply lt_IZR. lra. }
    unfold cv2.cvRound.
    destruct (Rlt_dec _ _); [lia |].
    destruct (Rlt_dec _ _); [lia |].
    destruct (Z.even _); lia.
Qed.

Lemma weighted_sample_between (w : R) (a b : Z) :
  0 <= w <= 1 -> (0 <= a <= 255)%Z -> (0 <= b <= 255)%Z ->
  (Z.min a b <= cv2.weighted_sample (1 - w) w 0 a b <= Z.max a b)%Z.
Proof.
  intros Hw Ha Hb. unfold cv2.weighted_sample.
  assert (Hx : IZR (Z.min a b) <= IZR a * (1 - w) + IZR b * w + 0
               <= IZR (Z.max a b)).
  { destruct (Z.le_ge_cases a b) as [Hab | Hab].
    - rewrite Z.min_l, Z.max_r by lia. apply IZR_le in Hab. split; nra.
    - rewrite Z.min_r, Z.max_l by lia. apply IZR_le in Hab. split; nra. }
  pose proof (cvRound_between _ _ _ Hx) as Hr.
  rewrite saturate_uint8 by lia. exact Hr.
Qed.

Lemma cosine_interpolation_unit (p : R) : 0 <= cosine_interpolation p <= 1.
Proof.
  unfold cosine_interpolation. pose proof (COS_bound (p * PI)). lra.
Qed.

Lemma shape_nth_row (h w c : nat) (f : Frame) (y : nat) :
  has_shape h w c f -> (y < h)%nat ->
  length (nth y f []) = w /\ Forall (fun px => length px = c) (nth y f []).
Proof.
  intros [Hlen Hall] Hy. rewrite Forall_forall in Hall.
  apply Hall, nth_In. lia.
Qed.

Lemma shape_nth_pixel (h w c : nat) (f : Frame) (y x : nat) :
  has_shape h w c f -> (y < h)%nat -> (x < w)%nat ->
  length (nth x (nth y f []) []) = c.
Proof.
  intros Hf Hy Hx. destruct (shape_nth_row h w c f y Hf Hy) as [Hw Hc].
  rewrite Forall_forall in Hc. apply Hc, nth_In. lia.
Qed.

Lemma valid_sample (h w c : nat) (f : Frame) (y x k : nat) :
  has_shape h w c f -> valid_frame f ->
  (y < h)%nat -> (x < w)%nat -> (k < c)%nat ->
  (0 <= sample f y x k <= 255)%Z.
Proof.
  intros Hf Hv Hy Hx Hk. unfold sample, valid_frame in *.
  destruct (shape_nth_row h w c f y Hf Hy) as [Hw _].
  pose proof (shape_nth_pixel h w c f y x Hf Hy Hx) as Hc.
  destruct Hf as [Hlen _].
  rewrite Forall_forall in Hv.
  assert (Hrow : Forall (Forall (fun v => (0 <= v <= 255)%Z)) (nth y f [])).
  { apply Hv, nth_In. lia. }
  rewrite Forall_forall in Hrow.
  assert (Hpx : Forall (fun v => (0 <= v <= 255)%Z) (nth x (nth y f []) [])).
  { apply Hrow, nth_In. lia. }
  rewrite Forall_forall in Hpx. apply Hpx, nth_In. lia.
Qed.

Lemma addWeighted_sample (src1 src2 dst : Frame) (alpha beta gamma : R)
    (h w c y x k : nat) :
  has_shape h w c src1 ->
  cv2.addWeighted src1 alpha src2 beta gamma = Py.Ok dst ->
  (y < h)%nat -> (x < w)%nat -> (k < c)%nat ->
  sample dst y x k
  = cv2.weighted_sample alpha beta gamma (sample src1 y x k) (sample src2 y x k).
Proof.
  intros Hs Hdst Hy Hx Hk. unfold cv2.addWeighted in Hdst.
  pose proof (shape_nth_row h w c src1 y Hs Hy) as [Hw _].
  pose proof (shape_nth_pixel h w c src1 y x Hs Hy Hx) as Hc.
  destruct Hs as [Hlen _].
  pose proof (zip_same_nth _ _ src1 src2 dst y [] [] [] Hdst) as Hrow.
  specialize (Hrow (eq_ind_r (fun n => (y < n)%nat) Hy Hlen)).
  pose proof (zip_same_nth _ _ _ _ _ x [] [] [] Hrow) as Hpx.
  specialize (Hpx (eq_ind_r (fun n => (x < n)%nat) Hx Hw)).
  pose proof (zip_same_nth _ _ _ _ _ k 0%Z 0%Z 0%Z Hpx) as Hv.
  specialize (Hv (eq_ind_r (fun n => (k < n)%nat) Hk Hc)).
  unfold sample. inversion Hv as [Hs]. symmetry. exact Hs.
Qed.

End BlendBounds.

(** X6. On two frames of one size [enhanced_blend_frames] never fails:
    the result has that size and every sample of it is a [uint8].  On a
    non-empty frame and a frame of another size it raises the [cv2]
    error, whatever the progress. *)
Theorem enhanced_blend_frames_sizes (h w c h' w' c' : nat) (A B : Frame) (p : R) :
  has_shape h w c A -> has_shape h' w' c' B ->
  ((h, w, c) = (h', w', c') ->
     exists r, enhanced_blend_frames A B p = Py.Ok r /\
               has_shape h w c r /\ valid_frame r) /\
  ((0 < h)%nat -> (0 < w)%nat -> (h, w, c) <> (h', w', c') ->
     enhanced_blend_frames A B p = Py.Raise Py.Cv2Error).
Proof.
  intros HA HB. split.
  - intros E. inversion E; subst.
    now apply addWeighted_shape.
  - intros Hh Hw Hne. unfold enhanced_blend_frames, cv2.addWeighted.
    set (gs := fun a b : Z =>
                 @Py.Ok Z (cv2.weighted_sample
                   (1 - cosine_interpolation p) (cosine_interpolation p) 0 a b)).
    assert (Hgs : forall a b e', gs a b = Py.Raise e' -> e' = Py.Cv2Error)
      by (intros a b e' E; discriminate E).
    assert (Hgp : forall (pa pb : Pixel) e',
               zip_same Py.Cv2Error gs pa pb = Py.Raise e' -> e' = Py.Cv2Error)
      by (intros pa pb e'; apply zip_same_raises_only; exact Hgs).
    assert (Hgr : forall (ra rb : Row) e',
               zip_same Py.Cv2Error (zip_same Py.Cv2Error gs) ra rb = Py.Raise e'
               -> e' = Py.Cv2Error)
      by (intros ra rb e'; apply zip_same_raises_only; exact Hgp).
    destruct HA as [HlA HrA], HB as [HlB HrB].
    destruct (Nat.eq_dec h h') as [<- | Hhh].
    + destruct A as [| ra A']; [simpl in HlA; lia |].
      destruct B as [| rb B']; [simpl in HlB; lia |].
      inversion HrA as [| ? ? [HwA HcA] _]; inversion HrB as [| ? ? [HwB HcB] _]; subst.
      apply zip_same_head_raises.
      destruct (Nat.eq_dec (length ra) (length rb)) as [Hww | Hww].
      * destruct ra as [| pa ra']; [simpl in Hw; lia |].
        destruct rb as [| pb rb']; [simpl in Hww; lia |].
        inversion HcA; inversion HcB; subst.
        apply zip_same_head_raises.
        apply zip_same_length_mismatch; [exact Hgs |].
        intros Hcc. apply Hne.
        apply f_equal2; [apply f_equal2; [reflexivity | exact Hww] | exact Hcc].
      * apply zip_same_length_mismatch; [exact Hgp | exact Hww].
    + apply zip_same_length_mismatch; [exact Hgr |].
      intros E. apply Hhh. exact (eq_trans (eq_sym HlA) (eq_trans E HlB)).
Qed.

Lemma enhanced_blend_frames_sizes_witness :
  enhanced_blend_frames [[[1; 2; 3]]]%Z [[[1; 2; 3]; [4; 5; 6]]]%Z (1 / 2)
  = Py.Raise Py.Cv2Error.
Proof.
  apply (enhanced_blend_frames_sizes 1 1 3 1 2 3
           [[[1; 2; 3]]]%Z [[[1; 2; 3]; [4; 5; 6]]]%Z (1 / 2)).
  - split; [reflexivity | repeat constructor].
  - split; [reflexivity | repeat constructor].
  - lia.
  - lia.
  - discriminate.
Defined.

(** X7. A blend never overshoots: for two valid frames of one size and
    any progress, every sample of the result lies between the two
    samples it was blended from. *)
Theorem enhanced_blend_frames_between (h w c : nat) (A B : Frame) (p : R)
    (y x k : nat) :
  has_shape h w c A -> has_shape h w c B ->
  valid_frame A -> valid_frame B ->
  (y < h)%nat -> (x < w)%nat -> (k < c)%nat ->
  exists r,
    enhanced_blend_frames A B p = Py.Ok r /\
    (Z.min (sample A y x k) (sample B y x k) <= sample r y x k
     <= Z.max (sample A y x k) (sample B y x k))%Z.
Proof.
  intros HA HB HvA HvB Hy Hx Hk.
  destruct (blend_ok h w c A B p HA HB) as (r & Hr & _).
  exists r. split; [exact Hr |].
  unfold enhanced_blend_frames in Hr.
  rewrite (addWeighted_sample A B r _ _ _ h w c y x k HA Hr Hy Hx Hk).
  apply weighted_sample_between.
  - apply cosine_interpolation_unit.
  - now apply (valid_sample h w c).
  - now apply (valid_sample h w c).
Qed.

Lemma enhanced_blend_frames_between_witness :
  exists r,
    enhanced_blend_frames [[[0; 100; 255]]]%Z [[[255; 50; 255]]]%Z (1 / 3)
    = Py.Ok r /\
    (Z.min 100 50 <= sample r 0 0 1 <= Z.max 100 50)%Z.
Proof.
  apply (enhanced_blend_frames_between 1 1 3
           [[[0; 100; 255]]]%Z [[[255; 50; 255]]]%Z (1 / 3) 0 0 1).
  - split; [reflexivity | repeat constructor].
  - split; [reflexivity | repeat constructor].
  - repeat constructor; lia.
  - repeat constructor; lia.
  - lia.
  - lia.
  - lia.
Defined.

(* ================================================================= *)
(** * Further properties of the whip-pan translation *)

Section RollPeriod.

Lemma roll_list_shift_extent {A : Type} (xs : list A) (extent s k : Z) :
  length xs = Z.to_nat extent ->
  np.roll_list xs (s + k * extent) = np.roll_list xs s.
Proof.
  intros Hlen. unfold np.roll_list.
  destruct (Z.eqb_spec (Z.of_nat (length xs)) 0) as [_ | Hn]; [reflexivity |].
  assert (He : Z.of_nat (length xs) = extent) by lia.
  rewrite He, Z_mod_plus_full. reflexivity.
Qed.

Lemma roll_shift_extent (h w c : nat) (f : Frame) (s k : Z) :
  has_shape h w c f ->
  (forall extent, h = Z.to_nat extent ->
     np.roll f (s + k * extent) np.Axis0 = np.roll f s np.Axis0) /\
  (forall extent, w = Z.to_nat extent ->
     np.roll f (s + k * extent) np.Axis1 = np.roll f s np.Axis1).
Proof.
  intros [Hlen Hrows]. split; intros extent He; simpl.
  - apply roll_list_shift_extent. exact (eq_trans Hlen He).
  - apply map_ext_in. intros row Hin.
    rewrite Forall_forall in Hrows. destruct (Hrows row Hin) as [Hw _].
    apply roll_list_shift_extent. exact (eq_trans Hw He).
Qed.

Lemma roll_zero (f : Frame) (ax : np.axis) : np.roll f 0 ax = f.
Proof.
  destruct ax; simpl.
  - apply roll_list_zero.
  - rewrite <- (map_id f) at 2. apply map_ext. intros row. apply roll_list_zero.
Qed.

End RollPeriod.

Lemma translate_rolls_both_alike (self : Engine) (c : nat) (direction : string)
    (progress : R) (blurred_frame1 blurred_frame2 : Frame) :
  has_shape (Z.to_nat (output_height self)) (Z.to_nat (output_width self)) c
    blurred_frame2 ->
  let horizontal := Py.str_in direction ["left"; "right"]%string in
  let offset :=
    if horizontal
    then Py.int (IZR (output_width self) * progress
                 * (if String.eqb direction "right" then 1 else -1))
    else Py.int (IZR (output_height self) * progress
                 * (if String.eqb direction "down" then 1 else -1)) in
  let ax := if horizontal then np.Axis1 else np.Axis0 in
  whip_pan_translate self direction progress blurred_frame1 blurred_frame2
  = (np.roll blurred_frame1 offset ax, np.roll blurred_frame2 offset ax).
Proof.
  intros Hs horizontal offset ax.
  destruct (roll_shift_extent _ _ _ blurred_frame2 offset (-1) Hs) as [H0 H1].
  unfold whip_pan_translate, offset, ax, horizontal in *.
  destruct (Py.str_in direction ["left"; "right"]%string).
  - f_equal. rewrite <- (H1 (output_width self) eq_refl). f_equal; lia.
  - f_equal. rewrite <- (H0 (output_height self) eq_refl). f_equal; lia.
Qed.



(** X9. At progress 0 and at progress 1 the whip-pan translation leaves
    both frames where they are, whatever the direction: the offsets are
    0 or a whole extent. *)
Theorem whip_pan_translate_endpoints (self : Engine) (c : nat)
    (direction : string) (blurred_frame1 blurred_frame2 : Frame) :
  has_shape (Z.to_nat (output_height self)) (Z.to_nat (output_width self)) c
    blurred_frame1 ->
  has_shape (Z.to_nat (output_height self)) (Z.to_nat (output_width self)) c
    blurred_frame2 ->
  whip_pan_translate self direction 0 blurred_frame1 blurred_frame2
  = (blurred_frame1, blurred_frame2) /\
  whip_pan_translate self direction 1 blurred_frame1 blurred_frame2
  = (blurred_frame1, blurred_frame2).
Proof.
  intros Hs1 Hs2.
  assert (Hint0 : forall e s : R, Py.int (e * 0 * s) = 0%Z).
  { intros e s. replace (e * 0 * s) with (IZR 0) by ring. apply int_IZR. }
  assert (Hint1 : forall (e : Z) (b : bool),
            Py.int (IZR e * 1 * (if b then 1 else -1))
            = (0 + (if b then 1 else -1) * e)%Z).
  { intros e b. destruct b.
    - replace (IZR e * 1 * 1) with (IZR e) by ring. rewrite int_IZR. lia.
    - replace (IZR e * 1 * -1) with (IZR (- e)) by (rewrite opp_IZR; ring).
      rewrite int_IZR. lia. }
  split.
  - rewrite (translate_rolls_both_alike self c direction 0 _ _ Hs2).
    rewrite !Hint0. destruct (Py.str_in _ _); now rewrite !roll_zero.
  - rewrite (translate_rolls_both_alike self c direction 1 _ _ Hs2).
    rewrite !Hint1.
    destruct (Py.str_in _ _).
    + destruct (roll_shift_extent _ _ _ blurred_frame1 0
                  (if String.eqb direction "right" then 1 else -1)%Z Hs1) as [_ E1].
      destruct (roll_shift_extent _ _ _ blurred_frame2 0
                  (if String.eqb direction "right" then 1 else -1)%Z Hs2) as [_ E2].
      rewrite (E1 _ eq_refl), (E2 _ eq_refl). now rewrite !roll_zero.
    + destruct (roll_shift_extent _ _ _ blurred_frame1 0
                  (if String.eqb direction "down" then 1 else -1)%Z Hs1) as [E1 _].
      destruct (roll_shift_extent _ _ _ blurred_frame2 0
                  (if String.eqb direction "down" then 1 else -1)%Z Hs2) as [E2 _].
      rewrite (E1 _ eq_refl), (E2 _ eq_refl). now rewrite !roll_zero.
Qed.

Lemma whip_pan_translate_endpoints_witness :
  let self := {| output_width := 2; output_height := 1; fps := 30 |} in
  whip_pan_translate self "left" 1
    [[[1; 1; 1]; [2; 2; 2]]]%Z [[[3; 3; 3]; [4; 4; 4]]]%Z
  = ([[[1; 1; 1]; [2; 2; 2]]]%Z, [[[3; 3; 3]; [4; 4; 4]]]%Z).
Proof.
  intros self.
  apply (whip_pan_translate_endpoints self 3 "left"
           [[[1; 1; 1]; [2; 2; 2]]]%Z [[[3; 3; 3]; [4; 4; 4]]]%Z);
    (split; [reflexivity | repeat constructor]).
Defined.

(** X10. A direction that is none of left, right and down is panned like
    "up": along the rows axis, by the output height, with sign -1.  So a
    whip pan asked for "horizontal" is blurred along the rows but moved
    along the columns. *)
Theorem whip_pan_unknown_direction_pans_up {lib : Cv2} (self : Engine)
    (direction : string) (progress intensity : R) (frame b1 b2 : Frame) :
  ~ In direction ["left"; "right"; "down"]%string ->
  whip_pan_translate self direction progress b1 b2
  = whip_pan_translate self "up" progress b1 b2 /\
  whip_pan_translate self "horizontal" progress b1 b2
  = whip_pan_translate self "up" progress b1 b2 /\
  apply_motion_blur frame intensity "horizontal"
  = apply_motion_blur frame intensity "left".
Proof.
  intros Hnot.
  assert (Hup : forall d, ~ In d ["left"; "right"; "down"]%string ->
            whip_pan_translate self d progress b1 b2
            = whip_pan_translate self "up" progress b1 b2).
  { intros d Hd. unfold whip_pan_translate.
    assert (Hlr : Py.str_in d ["left"; "right"]%string = false).
    { apply str_in_not_In. simpl in *. tauto. }
    assert (Hdown : String.eqb d "down" = false).
    { apply String.eqb_neq. simpl in Hd. intros E. apply Hd. auto. }
    rewrite Hlr, Hdown. reflexivity. }
  split; [now apply Hup |]. split.
  - apply Hup. simpl. intros [E | [E | [E | []]]]; discriminate E.
  - reflexivity.
Qed.

Lemma whip_pan_unknown_direction_pans_up_witness :
  let self := {| output_width := 2; output_height := 1; fps := 30 |} in
  whip_pan_translate self "diagonal" (1 / 2) [[[1; 2; 3]]]%Z [[[4; 5; 6]]]%Z
  = whip_pan_translate self "up" (1 / 2) [[[1; 2; 3]]]%Z [[[4; 5; 6]]]%Z.
Proof.
  intros self.
  apply (whip_pan_unknown_direction_pans_up (lib := plain_cv2) self "diagonal"
           (1 / 2) 0 [] [[[1; 2; 3]]]%Z [[[4; 5; 6]]]%Z).
  simpl. intros [E | [E | [E | []]]]; discriminate E.
Defined.

(* ================================================================= *)
(** * What the runs write *)

Section Written.

Context {lib : Cv2} {laws : Cv2Spec lib}.
Variable self : Engine.
Hypothesis width_pos : (0 < output_width self)%Z.
Hypothesis height_pos : (0 < output_height self)%Z.

Local Abbreviation H := (Z.to_nat (output_height self)).
Local Abbreviation W := (Z.to_nat (output_width self)).

Lemma run_transition_frames (body : Z -> Frame -> Frame -> Py.result Frame)
    (video1 video2 : list Frame) (duration_frames : Z) :
  (forall i f1 f2, exists r, body i f1 f2 = Py.Ok r) ->
  writes_step_results body video1 video2 duration_frames
    (run_transition body video1 video2 duration_frames).
Proof.
  intros Hbody. unfold writes_step_results, run_transition.
  destruct (frame_loop_ok body (range duration_frames)
              (fun i f1 f2 _ => Hbody i f1 f2)
              {| cap1 := video1; cap2 := video2; out := [] |})
    as (frames & Hrun & Hall).
  rewrite Hrun. exact Hall.
Qed.

Lemma results_all {X Y : Type} (g : X -> Py.result Y) (P : Y -> Prop)
    (xs : list X) (ys : list Y) :
  (forall x y, g x = Py.Ok y -> P y) ->
  Forall2 (fun x y => g x = Py.Ok y) xs ys -> Forall P ys.
Proof.
  intros HP Hall. induction Hall; constructor; eauto.
Qed.

Lemma hstack_shape (h w c : nat) (a b : Frame) :
  has_shape h w c a -> has_shape h w c b ->
  exists r, np.hstack a b = Py.Ok r /\ has_shape h (w + w) c r.
Proof.
  intros Ha Hb.
  destruct (hstack_ok h w c a b Ha Hb) as (r & Hr).
  exists r. split; [exact Hr |].
  unfold np.hstack in Hr.
  destruct (np.channels a =? np.channels b)%nat; [| discriminate Hr].
  destruct Ha as [Hla Hra], Hb as [Hlb Hrb].
  destruct (zip_same_ok Py.ValueError
              (fun ra rb : Row => Py.Ok (ra ++ rb))
              (fun row : Row => length row = (w + w)%nat /\
                                Forall (fun px => length px = c) row) a b)
    as (r' & Hr' & Hlen & Hall).
  - eapply Forall2_impl;
      [| apply (Forall2_of_Forall _ _ a b (eq_trans Hla (eq_sym Hlb)) Hra Hrb)].
    intros ra rb [[Hwa Hca] [Hwb Hcb]]. eexists. split; [reflexivity |]. split.
    + rewrite length_app. exact (f_equal2 Nat.add Hwa Hwb).
    + apply Forall_app. split; assumption.
  - assert (E : Py.Ok r = Py.Ok r') by exact (eq_trans (eq_sym Hr) Hr').
    injection E as ->. split.
    + exact (eq_trans Hlen Hla).
    + exact Hall.
Qed.

Lemma dissolve_step_shape (duration_frames frame_num : Z) (frame1 frame2 r : Frame) :
  dissolve_step self duration_frames frame_num frame1 frame2 = Py.Ok r ->
  has_shape H W 3 r.
Proof.
  unfold dissolve_step.
  rewrite !(cv2_resize_ok self width_pos height_pos). cbn [Py.bind].
  destruct (Py.truediv frame_num (duration_frames - 1)) as [progress | e];
    cbn [Py.bind]; [| discriminate].
  destruct (blend_ok H W 3 _ _ progress
              (resized_shape self width_pos height_pos frame1)
              (resized_shape self width_pos height_pos frame2)) as (r0 & Hr0 & Hs0).
  rewrite Hr0. cbn [Py.bind]. intros E. inversion E; subst.
  now apply putText_shape, putText_shape.
Qed.

Lemma progressive_blur_step_shape (duration_frames frame_num : Z)
    (frame1 frame2 r : Frame) :
  progressive_blur_step self duration_frames frame_num frame1 frame2 = Py.Ok r ->
  has_shape H W 3 r.
Proof.
  unfold progressive_blur_step.
  rewrite !(cv2_resize_ok self width_pos height_pos). cbn [Py.bind].
  destruct (Py.truediv frame_num (duration_frames - 1)) as [progress | e];
    cbn [Py.bind]; [| discriminate].
  destruct (apply_progressive_blur_ok H W 3 _ (progressive_blur_intensity progress)
              (resized_shape self width_pos height_pos frame1)) as (g1 & Hg1 & Hs1).
  destruct (apply_progressive_blur_ok H W 3 _ (progressive_blur_intensity progress)
              (resized_shape self width_pos height_pos frame2)) as (g2 & Hg2 & Hs2).
  rewrite Hg1. cbn [Py.bind]. rewrite Hg2. cbn [Py.bind].
  destruct (blend_ok H W 3 g1 g2 progress Hs1 Hs2) as (r0 & Hr0 & Hs0).
  rewrite Hr0. cbn [Py.bind]. intros E. inversion E; subst.
  now apply putText_shape, putText_shape.
Qed.

Lemma whip_pan_step_shape (direction : string) (duration_frames frame_num : Z)
    (frame1 frame2 r : Frame) :
  whip_pan_step self direction duration_frames frame_num frame1 frame2 = Py.Ok r ->
  has_shape H W 3 r.
Proof.
  unfold whip_pan_step.
  rewrite !(cv2_resize_ok self width_pos height_pos). cbn [Py.bind].
  destruct (Py.truediv frame_num (duration_frames - 1)) as [progress | e];
    cbn [Py.bind]; [| discriminate].
  set (b1 := apply_motion_blur _ _ _). set (b2 := apply_motion_blur _ _ _).
  destruct (whip_pan_translate_shape self H W 3 direction progress b1 b2)
    as [Hs1 Hs2].
  { apply apply_motion_blur_shape, resized_shape; assumption. }
  { apply apply_motion_blur_shape, resized_shape; assumption. }
  destruct (whip_pan_translate self direction progress b1 b2) as [t1 t2].
  cbn [fst snd] in Hs1, Hs2.
  destruct (blend_ok H W 3 t1 t2 progress Hs1 Hs2) as (r0 & Hr0 & Hs0).
  rewrite Hr0. cbn [Py.bind]. intros E. inversion E; subst.
  now apply putText_shape, putText_shape.
Qed.

Lemma comparison_step_shape (duration_frames frame_num : Z)
    (frame1 frame2 r : Frame) :
  comparison_step self duration_frames frame_num frame1 frame2 = Py.Ok r ->
  has_shape H (W + W) 3 r.
Proof.
  unfold comparison_step.
  rewrite !(cv2_resize_ok self width_pos height_pos). cbn [Py.bind].
  destruct (Py.truediv frame_num (duration_frames - 1)) as [progress | e];
    cbn [Py.bind]; [| discriminate].
  destruct (addWeighted_shape H W 3 _ _ (1 - progress) progress 0
              (resized_shape self width_pos height_pos frame1)
              (resized_shape self width_pos height_pos frame2))
    as (left_result & Hl & Hsl & _).
  rewrite Hl. cbn [Py.bind].
  destruct (blend_ok H W 3 _ _ progress
              (resized_shape self width_pos height_pos frame1)
              (resized_shape self width_pos height_pos frame2))
    as (right_result & Hr & Hsr).
  rewrite Hr. cbn [Py.bind].
  destruct (hstack_shape H W 3 left_result right_result Hsl Hsr) as (cmp & Hc & Hsc).
  rewrite Hc. cbn [Py.bind]. intros E. inversion E; subst.
  now apply putText_shape, putText_shape, putText_shape.
Qed.

End Written.

(** X11. Every frame a transition method writes has the size its
    [VideoWriter] was opened with: output height by output width, three
    channels, for the dissolve, the progressive blur and the whip pan;
    twice the output width for the comparison demo. *)
Theorem written_frames_have_writer_size {lib : Cv2} {laws : Cv2Spec lib}
    (self : Engine) (video1 video2 : list Frame) (direction : string)
    (duration_frames : Z) :
  (0 < output_width self)%Z -> (0 < output_height self)%Z ->
  duration_frames <> 1%Z ->
  let H := Z.to_nat (output_height self) in
  let W := Z.to_nat (output_width self) in
  Forall (has_shape H W 3)
    (out (fst (create_enhanced_dissolve_transition self video1 video2
                 duration_frames))) /\
  Forall (has_shape H W 3)
    (out (fst (create_progressive_blur_transition self video1 video2
                 duration_frames))) /\
  Forall (has_shape H W 3)
    (out (fst (create_whip_pan_transition self video1 video2 direction
                 duration_frames))) /\
  Forall (has_shape H (W + W) 3)
    (out (fst (create_comparison_demo self video1 video2 duration_frames))).
Proof.
  intros HW HH Hd H W.
  split; [| split; [| split]].
  - eapply results_all;
      [| apply (run_transition_frames (dissolve_step self duration_frames));
         intros; now apply dissolve_step_ok].
    intros [i [f1 f2]] r. now apply dissolve_step_shape.
  - eapply results_all;
      [| apply (run_transition_frames (progressive_blur_step self duration_frames));
         intros; now apply progressive_blur_step_ok].
    intros [i [f1 f2]] r. now apply progressive_blur_step_shape.
  - eapply results_all;
      [| apply (run_transition_frames
                  (whip_pan_step self direction duration_frames));
         intros; now apply whip_pan_step_ok].
    intros [i [f1 f2]] r. now apply whip_pan_step_shape.
  - eapply results_all;
      [| apply (run_transition_frames (comparison_step self duration_frames));
         intros; now apply comparison_step_ok].
    intros [i [f1 f2]] r. now apply comparison_step_shape.
Qed.

Lemma written_frames_have_writer_size_witness :
  let self := {| output_width := 2; output_height := 1; fps := 30 |} in
  let black := [[[0; 0; 0]; [0; 0; 0]]]%Z in
  let white := [[[255; 255; 255]; [255; 255; 255]]]%Z in
  Forall (has_shape 1 (2 + 2) 3)
    (out (fst (create_comparison_demo (lib := plain_cv2) self
                 [black; black] [white; white] 2))).
Proof.
  intros self black white.
  apply (written_frames_have_writer_size (laws := plain_cv2_spec) self
           [black; black] [white; white] "left" 2); simpl; lia.
Defined.

(** X12. The frames are written in order and each from its own step
    only: the k-th frame in the writer is the result of the loop body on
    the k-th frame of the first capture, the k-th frame of the second and
    the frame number k, up to the first step a capture has run dry. *)
Theorem written_frames_follow_the_captures {lib : Cv2} {laws : Cv2Spec lib}
    (self : Engine) (video1 video2 : list Frame) (direction : string)
    (duration_frames : Z) :
  (0 < output_width self)%Z -> (0 < output_height self)%Z ->
  duration_frames <> 1%Z ->
  writes_step_results (dissolve_step self duration_frames)
    video1 video2 duration_frames
    (create_enhanced_dissolve_transition self video1 video2 duration_frames) /\
  writes_step_results (progressive_blur_step self duration_frames)
    video1 video2 duration_frames
    (create_progressive_blur_transition self video1 video2 duration_frames) /\
  writes_step_results (whip_pan_step self direction duration_frames)
    video1 video2 duration_frames
    (create_whip_pan_transition self video1 video2 direction duration_frames) /\
  writes_step_results (comparison_step self duration_frames)
    video1 video2 duration_frames
    (create_comparison_demo self video1 video2 duration_frames).
Proof.
  intros HW HH Hd.
  split; [| split; [| split]]; apply run_transition_frames; intros i f1 f2.
  - now apply dissolve_step_ok.
  - now apply progressive_blur_step_ok.
  - now apply whip_pan_step_ok.
  - now apply comparison_step_ok.
Qed.

Lemma written_frames_follow_the_captures_witness :
  let self := {| output_width := 2; output_height := 1; fps := 30 |} in
  let black := [[[0; 0; 0]; [0; 0; 0]]]%Z in
  let white := [[[255; 255; 255]; [255; 255; 255]]]%Z in
  writes_step_results (dissolve_step (lib := plain_cv2) self 3)
    [black; black; black] [white; white] 3
    (create_enhanced_dissolve_transition (lib := plain_cv2) self
       [black; black; black] [white; white] 3).
Proof.
  intros self black white.
  apply (written_frames_follow_the_captures (laws := plain_cv2_spec) self
           [black; black; black] [white; white] "left" 3); simpl; lia.
Defined.

(* ================================================================= *)
(** * The ends of a dissolve *)

Section BlendEnds.

Lemma blend_at_0 (h w c : nat) (A B : Frame) :
  has_shape h w c A -> has_shape h w c B -> valid_frame A ->
  enhanced_blend_frames A B 0 = Py.Ok A.
Proof.
  intros HA HB HvA. unfold enhanced_blend_frames.
  rewrite cosine_interpolation_0. apply addWeighted_fst.
  eapply Forall2_impl;
    [| exact (has_shape_pair h w c _ _ A B HA HB HvA (Forall3_True B))].
  intros r1 r2 Hr. eapply Forall2_impl; [| exact Hr].
  intros p1 p2 Hpx. eapply Forall2_impl; [| exact Hpx].
  intros a b [Ha _]. split; [exact Ha | ring].
Qed.

Lemma blend_at_1 (h w c : nat) (A B : Frame) :
  has_shape h w c A -> has_shape h w c B -> valid_frame B ->
  enhanced_blend_frames A B 1 = Py.Ok B.
Proof.
  intros HA HB HvB. unfold enhanced_blend_frames.
  rewrite cosine_interpolation_1. apply addWeighted_snd.
  eapply Forall2_impl;
    [| exact (has_shape_pair h w c _ _ A B HA HB (Forall3_True A) HvB)].
  intros r1 r2 Hr. eapply Forall2_impl; [| exact Hr].
  intros p1 p2 Hpx. eapply Forall2_impl; [| exact Hpx].
  intros a b [_ Hb]. split; [exact Hb | ring].
Qed.

End BlendEnds.

(** X13. A dissolve of at least two steps starts on the first video and
    ends on the second: when the resized frames are valid images, the
    body gives at frame number 0 the resized first frame, and at the last
    frame number the resized second frame, each under the two overlay
    texts (progress and cosine alpha both 0, respectively both 1). *)
Theorem dissolve_starts_and_ends_on_the_sources {lib : Cv2} {laws : Cv2Spec lib}
    (self : Engine) (duration_frames : Z) (frame1 frame2 : Frame) :
  (0 < output_width self)%Z -> (0 < output_height self)%Z ->
  (2 <= duration_frames)%Z ->
  let resized1 := resize frame1 (output_width self) (output_height self) in
  let resized2 := resize frame2 (output_width self) (output_height self) in
  valid_frame resized1 -> valid_frame resized2 ->
  let overlay frame value :=
    putText
      (putText frame [Lit "Enhanced Dissolve - Progress: "; Float value 2]
         (10, 30)%Z 0.7 white 2)
      [Lit "Cosine Alpha: "; Float value 3] (10, 60)%Z 0.7 yellow 2 in
  dissolve_step self duration_frames 0 frame1 frame2
  = Py.Ok (overlay resized1 0) /\
  dissolve_step self duration_frames (duration_frames - 1) frame1 frame2
  = Py.Ok (overlay resized2 1).
Proof.
  intros HW HH Hd resized1 resized2 Hv1 Hv2 overlay.
  assert (Hs1 := resized_shape self HW HH frame1).
  assert (Hs2 := resized_shape self HW HH frame2).
  assert (Hne : IZR (duration_frames - 1) <> 0).
  { apply not_0_IZR. lia. }
  unfold dissolve_step. rewrite !(cv2_resize_ok self HW HH). cbn [Py.bind].
  split.
  - rewrite truediv_ok by lia. cbn [Py.bind].
    rewrite Rdiv_0_l.
    rewrite (blend_at_0 _ _ _ _ _ Hs1 Hs2 Hv1). cbn [Py.bind].
    rewrite cosine_interpolation_0. reflexivity.
  - rewrite truediv_ok by lia. cbn [Py.bind].
    rewrite (Rdiv_diag _ Hne).
    rewrite (blend_at_1 _ _ _ _ _ Hs1 Hs2 Hv2). cbn [Py.bind].
    rewrite cosine_interpolation_1. reflexivity.
Qed.

Lemma dissolve_starts_and_ends_on_the_sources_witness :
  let self := {| output_width := 2; output_height := 1; fps := 30 |} in
  let black := [[[0; 0; 0]; [0; 0; 0]]]%Z in
  let white_frame := [[[255; 255; 255]; [255; 255; 255]]]%Z in
  dissolve_step (lib := plain_cv2) self 3 0 black white_frame
  = Py.Ok (Plain.resize black 2 1) /\
  dissolve_step (lib := plain_cv2) self 3 (3 - 1) black white_frame
  = Py.Ok (Plain.resize white_frame 2 1).
Proof.
  intros self black white_frame.
  apply (dissolve_starts_and_ends_on_the_sources (laws := plain_cv2_spec)
           self 3 black white_frame); try (simpl; lia).
  - repeat constructor; lia.
  - repeat constructor; lia.
Defined.

(* ================================================================= *)
(** * What the driver writes *)

Section MainRuns.

Context {lib : Cv2} {laws : Cv2Spec lib}.

Lemma run_transition_none (body : Z -> Frame -> Frame -> Py.result Frame)
    (video1 video2 : list Frame) (duration_frames : Z) :
  (forall i f1 f2, exists r, body i f1 f2 = Py.Ok r) ->
  exists frames st,
    run_transition body video1 video2 duration_frames
    = ({| cap1 := cap1 st; cap2 := cap2 st; out := frames |}, Py.Ok Py.None_) /\
    length frames = steps_done video1 video2 duration_frames.
Proof.
  intros Hbody.
  destruct (run_transition_ok body video1 video2 duration_frames Hbody)
    as (frames & Hrun & Hlen).
  exists frames. eexists {| cap1 := _; cap2 := _; out := [] |}.
  split; [exact Hrun | exact Hlen].
Qed.

End MainRuns.

(** X15. [main] makes the output directory before it looks for the
    input videos.  When that fails it ends in the [OSError] and writes
    nothing.  Otherwise the directory is there; with an input video
    missing [main] then ends normally without writing a file; with both
    it ends normally having written seven files, in this order: the
    dissolve, the progressive blur, the whip pans left, right, up and
    down, and the comparison; every one holds the same number of frames,
    the smallest of 90 and the lengths of the two videos, each
    transition reading the videos from their start. *)
Theorem main_writes_seven_files {lib : Cv2} {laws : Cv2Spec lib}
    (files : string -> option (list Frame)) :
  main false files = ((false, []), Py.Raise Py.OSError) /\
  (files "input_videos/video1.mp4"%string = None \/
   files "input_videos/video2.mp4"%string = None ->
   main true files = ((true, []), Py.Ok Py.None_)) /\
  (forall video1 video2,
     files "input_videos/video1.mp4"%string = Some video1 ->
     files "input_videos/video2.mp4"%string = Some video2 ->
     exists outs,
       main true files = ((true, outs), Py.Ok Py.None_) /\
       map fst outs
       = ["enhanced_transitions_output/enhanced_dissolve_demo.mp4";
          "enhanced_transitions_output/progressive_blur_demo.mp4";
          "enhanced_transitions_output/whip_pan_left_demo.mp4";
          "enhanced_transitions_output/whip_pan_right_demo.mp4";
          "enhanced_transitions_output/whip_pan_up_demo.mp4";
          "enhanced_transitions_output/whip_pan_down_demo.mp4";
          "enhanced_transitions_output/before_after_comparison.mp4"]%string /\
       Forall (fun o => length (snd o) = steps_done video1 video2 90) outs).
Proof.
  split; [reflexivity |]. split.
  - intros [H1 | H2]; unfold main; cbn [negb].
    + rewrite H1. reflexivity.
    + rewrite H2.
      destruct (files "input_videos/video1.mp4"%string); reflexivity.
  - intros video1 video2 H1 H2. unfold main. cbn [negb]. rewrite H1, H2.
    set (engine := {| output_width := 1280; output_height := 720; fps := 30 |}).
    assert (HW : (0 < output_width engine)%Z) by (simpl; lia).
    assert (HH : (0 < output_height engine)%Z) by (simpl; lia).
    assert (Hd : 90%Z <> 1%Z) by lia.
    unfold create_enhanced_dissolve_transition,
      create_progressive_blur_transition, create_comparison_demo.
    cbn [fold_left]. unfold create_whip_pan_transition.
    destruct (run_transition_none (dissolve_step engine 90) video1 video2 90)
      as (fd & sd & Ed & Ld); [intros; now apply dissolve_step_ok |].
    destruct (run_transition_none (progressive_blur_step engine 90) video1 video2 90)
      as (fp & sp & Ep & Lp); [intros; now apply progressive_blur_step_ok |].
    destruct (run_transition_none (whip_pan_step engine "left" 90) video1 video2 90)
      as (fl & sl & El & Ll); [intros; now apply whip_pan_step_ok |].
    destruct (run_transition_none (whip_pan_step engine "right" 90) video1 video2 90)
      as (fr & sr & Er & Lr); [intros; now apply whip_pan_step_ok |].
    destruct (run_transition_none (whip_pan_step engine "up" 90) video1 video2 90)
      as (fu & su & Eu & Lu); [intros; now apply whip_pan_step_ok |].
    destruct (run_transition_none (whip_pan_step engine "down" 90) video1 video2 90)
      as (fw & sw & Ew & Lw); [intros; now apply whip_pan_step_ok |].
    destruct (run_transition_none (comparison_step engine 90) video1 video2 90)
      as (fc & sc & Ec & Lc); [intros; now apply comparison_step_ok |].
    rewrite Ed, Ep, El, Er, Eu, Ew, Ec.
    cbn [call_transition fst snd out app].
    eexists. split; [reflexivity |]. split; [reflexivity |].
    repeat constructor; assumption.
Qed.

Lemma main_writes_seven_files_witness :
  let black := [[[0; 0; 0]]]%Z in
  exists outs,
    main (lib := plain_cv2) true (fun _ => Some [black; black])
    = ((true, outs), Py.Ok Py.None_) /\
    map fst outs
    = ["enhanced_transitions_output/enhanced_dissolve_demo.mp4";
       "enhanced_transitions_output/progressive_blur_demo.mp4";
       "enhanced_transitions_output/whip_pan_left_demo.mp4";
       "enhanced_transitions_output/whip_pan_right_demo.mp4";
       "enhanced_transitions_output/whip_pan_up_demo.mp4";
       "enhanced_transitions_output/whip_pan_down_demo.mp4";
       "enhanced_transitions_output/before_after_comparison.mp4"]%string /\
    Forall (fun o => length (snd o) = steps_done [black; black] [black; black] 90)
           outs.
Proof.
  intros black.
  apply (proj2 (proj2 (main_writes_seven_files (laws := plain_cv2_spec)
                         (fun _ => Some [black; black]))));
    reflexivity.
Defined.

(* ================================================================= *)
(** * Properties of binary64 rounding *)

Section Pow2.

Lemma pow2_pos (k : Z) : 0 < B64.pow2 k.
Proof. apply powerRZ_lt. lra. Qed.

Lemma pow2_add (a b : Z) : B64.pow2 (a + b) = B64.pow2 a * B64.pow2 b.
Proof. apply powerRZ_add. lra. Qed.

Lemma pow2_neg (k : Z) : B64.pow2 (- k) = / B64.pow2 k.
Proof. apply powerRZ_neg'. Qed.

Lemma pow2_IZR (k : Z) : (0 <= k)%Z -> B64.pow2 k = IZR (2 ^ k).
Proof.
  intros Hk. unfold B64.pow2. destruct k as [| p | p]; [reflexivity | | lia].
  simpl. rewrite pow_IZR. now rewrite positive_nat_Z.
Qed.

Lemma pow2_cancel (k : Z) : B64.pow2 k * B64.pow2 (- k) = 1.
Proof. rewrite <- pow2_add, Z.add_opp_diag_r. reflexivity. Qed.

Lemma pow2_le (a b : Z) : (a <= b)%Z -> B64.pow2 a <= B64.pow2 b.
Proof.
  intros Hab. replace b with (a + (b - a))%Z by lia.
  rewrite pow2_add, (pow2_IZR (b - a)) by lia.
  assert (1 <= IZR (2 ^ (b - a))).
  { apply IZR_le. assert (0 < 2 ^ (b - a))%Z by (apply Z.pow_pos_nonneg; lia). lia. }
  pose proof (pow2_pos a). nra.
Qed.

Lemma pow2_lt (a b : Z) : (a < b)%Z -> B64.pow2 a < B64.pow2 b.
Proof.
  intros Hab. replace b with (a + (b - a))%Z by lia.
  rewrite pow2_add, (pow2_IZR (b - a)) by lia.
  assert (2 <= IZR (2 ^ (b - a))).
  { apply IZR_le. replace (b - a)%Z with (Z.succ (b - a - 1)) by lia.
    rewrite Z.pow_succ_r by lia.
    assert (0 < 2 ^ (b - a - 1))%Z by (apply Z.pow_pos_nonneg; lia). lia. }
  pose proof (pow2_pos a). nra.
Qed.

Lemma pow2_lt_inv (a b : Z) : B64.pow2 a < B64.pow2 b -> (a < b)%Z.
Proof.
  intros H. destruct (Z_lt_ge_dec a b) as [Hlt | Hge]; [exact Hlt |].
  pose proof (pow2_le b a ltac:(lia)). lra.
Qed.

Lemma ln_pow2 (k : Z) : ln (B64.pow2 k) = IZR k * ln 2.
Proof.
  unfold B64.pow2. rewrite powerRZ_Rpower by lra. unfold Rpower. apply ln_exp.
Qed.

Lemma ln2_pos : 0 < ln 2.
Proof. pose proof ln_lt_2. lra. Qed.

End Pow2.

Section Mag.

Lemma mag_spec (x : R) :
  x <> 0 -> B64.pow2 (B64.mag x) <= Rabs x < B64.pow2 (B64.mag x + 1).
Proof.
  intros Hx. pose proof (Rabs_pos_lt x Hx) as Ha. pose proof ln2_pos as Hl.
  unfold B64.mag. set (t := ln (Rabs x) / ln 2).
  destruct (Int_part_bounds t) as [Hlo Hhi].
  assert (Ht : ln (Rabs x) = t * ln 2) by (unfold t; field; lra).
  split.
  - destruct (Rle_lt_dec (B64.pow2 (Int_part t)) (Rabs x)) as [H | H]; [exact H |].
    apply ln_increasing in H; [| exact Ha].
    rewrite ln_pow2, Ht in H. nra.
  - apply ln_lt_inv; [exact Ha | apply pow2_pos |].
    rewrite ln_pow2, Ht, plus_IZR. nra.
Qed.

Lemma mag_unique (x : R) (k : Z) :
  B64.pow2 k <= Rabs x < B64.pow2 (k + 1) -> B64.mag x = k.
Proof.
  intros [Hlo Hhi].
  assert (Hx : x <> 0).
  { intros ->. rewrite Rabs_R0 in Hlo. pose proof (pow2_pos k). lra. }
  destruct (mag_spec x Hx) as [Mlo Mhi].
  assert (B64.mag x < k + 1)%Z by (apply pow2_lt_inv; lra).
  assert (k < B64.mag x + 1)%Z by (apply pow2_lt_inv; lra).
  lia.
Qed.

Lemma mag_lt (x : R) (k : Z) : x <> 0 -> Rabs x < B64.pow2 k -> (B64.mag x < k)%Z.
Proof.
  intros Hx Hlt. destruct (mag_spec x Hx) as [Mlo _].
  apply pow2_lt_inv. lra.
Qed.

Lemma mag_le (x y : R) : x <> 0 -> Rabs x <= Rabs y -> (B64.mag x <= B64.mag y)%Z.
Proof.
  intros Hx Hxy.
  assert (Hy : y <> 0).
  { intros ->. rewrite Rabs_R0 in Hxy. pose proof (Rabs_pos_lt x Hx). lra. }
  destruct (mag_spec x Hx) as [Mlo _]. destruct (mag_spec y Hy) as [_ Mhi].
  assert (B64.mag x < B64.mag y + 1)%Z by (apply pow2_lt_inv; lra).
  lia.
Qed.

Lemma mag_opp (x : R) : B64.mag (- x) = B64.mag x.
Proof. unfold B64.mag. now rewrite Rabs_Ropp. Qed.

Lemma ulp_exp_opp (x : R) : B64.ulp_exp (- x) = B64.ulp_exp x.
Proof. unfold B64.ulp_exp. now rewrite mag_opp. Qed.

End Mag.

Section Rne.

Lemma rne_IZR (k : Z) : B64.rne (IZR k) = k.
Proof.
  unfold B64.rne. rewrite Int_part_IZR.
  destruct (Rlt_dec (IZR k - IZR k) (1 / 2)) as [_ | Hn]; [reflexivity | lra].
Qed.

Lemma rne_floor (x : R) :
  B64.rne x = Int_part x \/ B64.rne x = (Int_part x + 1)%Z.
Proof.
  unfold B64.rne. destruct (Rlt_dec _ _); [now left |].
  destruct (Rlt_dec _ _); [now right |]. destruct (Z.even _); auto.
Qed.

Lemma rne_error (x : R) : Rabs (IZR (B64.rne x) - x) <= 1 / 2.
Proof.
  destruct (Int_part_bounds x) as [Hlo Hhi]. unfold B64.rne.
  destruct (Rlt_dec _ _) as [H1 | H1].
  - rewrite Rabs_left1 by lra. lra.
  - destruct (Rlt_dec _ _) as [H2 | H2].
    + rewrite plus_IZR, Rabs_right by lra. lra.
    + destruct (Z.even _).
      * rewrite Rabs_left1 by lra. lra.
      * rewrite plus_IZR, Rabs_right by lra. lra.
Qed.

Lemma rne_mono (x y : R) : x <= y -> (B64.rne x <= B64.rne y)%Z.
Proof.
  intros Hxy. pose proof (Int_part_mono x y Hxy) as Hf.
  destruct (Z.eq_dec (Int_part x) (Int_part y)) as [He | Hne].
  - unfold B64.rne. rewrite <- He.
    destruct (Rlt_dec (x - _) _); destruct (Rlt_dec (y - _) _); try lia;
      try (destruct (Rlt_dec (1 / 2) (y - _)); [lia | destruct (Z.even _); lia]).
    + lra.
    + destruct (Rlt_dec (1 / 2) (x - _)); destruct (Rlt_dec (1 / 2) (y - _));
        try lia; try lra; destruct (Z.even _); lia.
  - destruct (rne_floor x) as [-> | ->]; destruct (rne_floor y) as [-> | ->]; lia.
Qed.

Lemma rne_between (x : R) (m M : Z) :
  IZR m <= x <= IZR M -> (m <= B64.rne x <= M)%Z.
Proof.
  intros [Hm HM]. split.
  - rewrite <- (rne_IZR m). now apply rne_mono.
  - rewrite <- (rne_IZR M). now apply rne_mono.
Qed.

Lemma rne_opp (x : R) : B64.rne (- x) = (- B64.rne x)%Z.
Proof.
  destruct (Int_part_bounds x) as [Hlo Hhi].
  destruct (Req_dec x (IZR (Int_part x))) as [He | Hne].
  - rewrite He, <- opp_IZR, !rne_IZR. reflexivity.
  - assert (Hf : Int_part (- x) = (- Int_part x - 1)%Z).
    { apply Int_part_unique. rewrite minus_IZR, opp_IZR. lra. }
    unfold B64.rne. rewrite Hf, !minus_IZR, !opp_IZR.
    destruct (Rlt_dec (x - _) _) as [A | A];
      destruct (Rlt_dec (- x - _) _) as [B | B]; try lra.
    + destruct (Rlt_dec (1 / 2) (- x - _)) as [C | C]; [lia | lra].
    + destruct (Rlt_dec (1 / 2) (x - _)) as [C | C]; [lia | lra].
    + destruct (Rlt_dec (1 / 2) (x - _)) as [C | C]; [lra |].
      destruct (Rlt_dec (1 / 2) (- x - _)) as [D | D]; [lra |].
      replace (- Int_part x - 1)%Z with (- (Int_part x + 1))%Z by lia.
      rewrite Z.even_opp, Z.even_add. simpl.
      destruct (Z.even (Int_part x)); simpl; lia.
Qed.

End Rne.

Section Round.

Lemma round_0 : B64.round 0 = 0.
Proof.
  unfold B64.round. rewrite Rmult_0_l.
  change 0 with (IZR 0) at 1. rewrite rne_IZR. lra.
Qed.

Lemma round_opp (x : R) : B64.round (- x) = - B64.round x.
Proof.
  unfold B64.round. rewrite ulp_exp_opp.
  replace (- x * B64.pow2 (- B64.ulp_exp x))
    with (- (x * B64.pow2 (- B64.ulp_exp x))) by ring.
  rewrite rne_opp, opp_IZR. ring.
Qed.

Lemma round_nonneg (x : R) : 0 <= x -> 0 <= B64.round x.
Proof.
  intros Hx. unfold B64.round.
  pose proof (pow2_pos (B64.ulp_exp x)) as Hp.
  pose proof (pow2_pos (- B64.ulp_exp x)) as Hn.
  assert (0 <= B64.rne (x * B64.pow2 (- B64.ulp_exp x)))%Z.
  { rewrite <- (rne_IZR 0). apply rne_mono. nra. }
  apply IZR_le in H. nra.
Qed.

(** A value that fits in 53 bits above the smallest exponent is kept. *)
Lemma round_exact (m e : Z) :
  (Z.abs m < 2 ^ 53)%Z -> (-1074 <= e)%Z ->
  B64.round (IZR m * B64.pow2 e) = IZR m * B64.pow2 e.
Proof.
  intros Hm He.
  destruct (Z.eq_dec m 0) as [-> | Hm0].
  { rewrite Rmult_0_l. apply round_0. }
  set (x := IZR m * B64.pow2 e).
  assert (Hx : x <> 0).
  { unfold x. pose proof (pow2_pos e). apply eq_IZR_contrapositive in Hm0. nra. }
  assert (Hux : (B64.ulp_exp x <= e)%Z).
  { unfold B64.ulp_exp.
    assert (B64.mag x < 53 + e)%Z.
    { apply mag_lt; [exact Hx |]. unfold x.
      rewrite Rabs_mult, (Rabs_right (B64.pow2 e))
        by (pose proof (pow2_pos e); lra).
      rewrite pow2_add, (pow2_IZR 53) by lia. rewrite <- abs_IZR.
      apply Rmult_lt_compat_r; [apply pow2_pos | now apply IZR_lt]. }
    lia. }
  unfold B64.round. fold x.
  set (u := B64.ulp_exp x) in *.
  assert (Hscaled : x * B64.pow2 (- u) = IZR (m * 2 ^ (e - u))).
  { unfold x. rewrite mult_IZR, <- pow2_IZR by lia.
    replace (e - u)%Z with (e + - u)%Z by lia. rewrite pow2_add. ring. }
  rewrite Hscaled, rne_IZR, mult_IZR, <- pow2_IZR by lia.
  unfold x. rewrite Rmult_assoc, <- pow2_add.
  replace (e - u + u)%Z with e by lia. reflexivity.
Qed.

Lemma round_int (n : Z) : (Z.abs n < 2 ^ 53)%Z -> B64.round (IZR n) = IZR n.
Proof.
  intros Hn. pose proof (round_exact n 0 Hn ltac:(lia)) as H.
  unfold B64.pow2 in H. simpl in H. rewrite Rmult_1_r in H. exact H.
Qed.

(** Evaluation in a known binade. *)
Lemma round_eval (x : R) (k : Z) :
  B64.pow2 k <= Rabs x < B64.pow2 (k + 1) -> (-1022 <= k)%Z ->
  B64.round x = IZR (B64.rne (x * B64.pow2 (52 - k))) * B64.pow2 (k - 52).
Proof.
  intros Hk Hn. unfold B64.round, B64.ulp_exp.
  rewrite (mag_unique x k Hk).
  replace (Z.max (k - 52) (-1074)) with (k - 52)%Z by lia.
  replace (- (k - 52))%Z with (52 - k)%Z by lia. reflexivity.
Qed.

Lemma round_mono_pos (x y : R) : 0 <= x -> x <= y -> B64.round x <= B64.round y.
Proof.
  intros Hx Hxy.
  destruct (Req_dec x 0) as [-> | Hx0].
  { rewrite round_0. apply round_nonneg. lra. }
  assert (Hy0 : y <> 0) by lra.
  assert (Hmag : (B64.mag x <= B64.mag y)%Z).
  { apply mag_le; [exact Hx0 |]. rewrite !Rabs_right by lra. exact Hxy. }
  destruct (mag_spec x Hx0) as [Xlo Xhi]. destruct (mag_spec y Hy0) as [Ylo Yhi].
  rewrite Rabs_right in Xlo, Xhi by lra. rewrite Rabs_right in Ylo, Yhi by lra.
  destruct (Z.eq_dec (B64.ulp_exp x) (B64.ulp_exp y)) as [He | Hne].
  - unfold B64.round. rewrite He.
    pose proof (pow2_pos (B64.ulp_exp y)) as Hp.
    pose proof (pow2_pos (- B64.ulp_exp y)) as Hn.
    assert (H : (B64.rne (x * B64.pow2 (- B64.ulp_exp y))
                 <= B64.rne (y * B64.pow2 (- B64.ulp_exp y)))%Z).
    { apply rne_mono. nra. }
    apply IZR_le in H. nra.
  - assert (Hlt : (B64.ulp_exp x < B64.ulp_exp y)%Z).
    { unfold B64.ulp_exp in *. lia. }
    assert (Hey : B64.ulp_exp y = (B64.mag y - 52)%Z).
    { unfold B64.ulp_exp in *. lia. }
    assert (Hmx : (B64.mag x + 1 <= B64.mag y)%Z).
    { unfold B64.ulp_exp in *. lia. }
    apply Rle_trans with (B64.pow2 (B64.mag y)).
    + (* round x does not pass the next power of two *)
      unfold B64.round. set (u := B64.ulp_exp x) in *.
      pose proof (pow2_pos u) as Hp. pose proof (pow2_pos (- u)) as Hn.
      destruct (Z_lt_ge_dec (B64.mag x + 1 - u) 0) as [Hk | Hk].
      * assert (Hs : x * B64.pow2 (- u) <= IZR 1).
        { assert (B64.pow2 (B64.mag x + 1) <= B64.pow2 u) by (apply pow2_le; lia).
          apply (Rmult_le_reg_r (B64.pow2 u)); [exact Hp |].
          rewrite Rmult_assoc, (Rmult_comm (B64.pow2 (- u))), pow2_cancel. lra. }
        assert (Hr : (B64.rne (x * B64.pow2 (- u)) <= 1)%Z).
        { rewrite <- (rne_IZR 1). now apply rne_mono. }
        apply IZR_le in Hr.
        assert (B64.pow2 u <= B64.pow2 (B64.mag y)) by (apply pow2_le; lia).
        nra.
      * assert (Hs : x * B64.pow2 (- u) <= IZR (2 ^ (B64.mag x + 1 - u))).
        { rewrite <- pow2_IZR by lia.
          replace (B64.mag x + 1 - u)%Z with (B64.mag x + 1 + - u)%Z by lia.
          rewrite pow2_add. nra. }
        assert (Hr : (B64.rne (x * B64.pow2 (- u)) <= 2 ^ (B64.mag x + 1 - u))%Z).
        { rewrite <- (rne_IZR (2 ^ _)). now apply rne_mono. }
        apply IZR_le in Hr. rewrite <- pow2_IZR in Hr by lia.
        assert (Hb : B64.pow2 (B64.mag x + 1 - u) * B64.pow2 u
                     = B64.pow2 (B64.mag x + 1)).
        { rewrite <- pow2_add. f_equal. lia. }
        assert (B64.pow2 (B64.mag x + 1) <= B64.pow2 (B64.mag y))
          by (apply pow2_le; lia).
        nra.
    + (* round y does not fall below its own power of two *)
      unfold B64.round. rewrite Hey.
      pose proof (pow2_pos (B64.mag y - 52)) as Hp.
      pose proof (pow2_pos (- (B64.mag y - 52))) as Hn.
      assert (Hs : IZR (2 ^ 52) <= y * B64.pow2 (- (B64.mag y - 52))).
      { rewrite <- pow2_IZR by lia.
        replace 52%Z with (B64.mag y + - (B64.mag y - 52))%Z at 1 by lia.
        rewrite pow2_add. nra. }
      assert (Hr : (2 ^ 52 <= B64.rne (y * B64.pow2 (- (B64.mag y - 52))))%Z).
      { rewrite <- (rne_IZR (2 ^ 52)) at 1. now apply rne_mono. }
      apply IZR_le in Hr. rewrite <- pow2_IZR in Hr by lia.
      assert (Hb : B64.pow2 52 * B64.pow2 (B64.mag y - 52) = B64.pow2 (B64.mag y)).
      { rewrite <- pow2_add. f_equal. lia. }
      nra.
Qed.

(** Rounding keeps the order. *)
Lemma round_mono (x y : R) : x <= y -> B64.round x <= B64.round y.
Proof.
  intros Hxy.
  destruct (Rle_lt_dec 0 x) as [Hx | Hx].
  - now apply round_mono_pos.
  - destruct (Rle_lt_dec 0 y) as [Hy | Hy].
    + pose proof (round_nonneg (- x) ltac:(lra)) as Hn.
      rewrite round_opp in Hn.
      pose proof (round_nonneg y Hy). lra.
    + assert (Hn : B64.round (- y) <= B64.round (- x))
        by (apply round_mono_pos; lra).
      rewrite !round_opp in Hn. lra.
Qed.

Lemma round_error (x : R) :
  Rabs (B64.round x - x) <= B64.pow2 (B64.ulp_exp x) / 2.
Proof.
  unfold B64.round. set (u := B64.ulp_exp x).
  pose proof (pow2_pos u) as Hp.
  pose proof (rne_error (x * B64.pow2 (- u))) as He.
  replace (IZR (B64.rne (x * B64.pow2 (- u))) * B64.pow2 u - x)
    with ((IZR (B64.rne (x * B64.pow2 (- u))) - x * B64.pow2 (- u)) * B64.pow2 u).
  - rewrite Rabs_mult, (Rabs_right (B64.pow2 u)) by lra. nra.
  - rewrite Rmult_minus_distr_r, Rmult_assoc, (Rmult_comm (B64.pow2 (- u))),
      pow2_cancel. ring.
Qed.

End Round.

Section Floats.

Lemma of_int_exact (n : Z) : (Z.abs n < 2 ^ 53)%Z -> B64.of_int n = IZR n.
Proof. apply round_int. Qed.

Lemma mul_nonneg (x y : R) : 0 <= x -> 0 <= y -> 0 <= B64.mul x y.
Proof. intros Hx Hy. apply round_nonneg. now apply Rmult_le_pos. Qed.

Lemma mul_mono_l (x y c : R) : 0 <= c -> x <= y -> B64.mul x c <= B64.mul y c.
Proof. intros Hc Hxy. apply round_mono. nra. Qed.

(** A product between two whole numbers stays between them. *)
Lemma round_between_ints (x : R) (m M : Z) :
  (Z.abs m < 2 ^ 53)%Z -> (Z.abs M < 2 ^ 53)%Z ->
  IZR m <= x <= IZR M -> IZR m <= B64.round x <= IZR M.
Proof.
  intros Hm HM [Hlo Hhi]. split.
  - rewrite <- (round_int m Hm). now apply round_mono.
  - rewrite <- (round_int M HM). now apply round_mono.
Qed.

Lemma int_opp (x : R) : Py.int (- x) = (- Py.int x)%Z.
Proof.
  unfold Py.int.
  destruct (Rle_dec 0 (- x)) as [Hn | Hn]; destruct (Rle_dec 0 x) as [Hp | Hp].
  - assert (x = 0) as -> by lra. rewrite Ropp_0, Int_part_IZR. reflexivity.
  - lia.
  - rewrite Ropp_involutive. reflexivity.
  - lra.
Qed.

End Floats.

(* ================================================================= *)
(** * The kernel size in binary64 *)

Section KernelB64.

Lemma rne_near (z : R) (n : Z) : IZR n - 1 / 2 < z < IZR n + 1 / 2 -> B64.rne z = n.
Proof.
  intros [Hlo Hhi].
  destruct (Rle_lt_dec (IZR n) z) as [Hge | Hlt].
  - assert (Hf : Int_part z = n) by (apply Int_part_unique; lra).
    unfold B64.rne. rewrite Hf.
    destruct (Rlt_dec (z - IZR n) (1 / 2)); [reflexivity | lra].
  - assert (Hf : Int_part z = (n - 1)%Z).
    { apply Int_part_unique. rewrite minus_IZR. lra. }
    unfold B64.rne. rewrite Hf, minus_IZR.
    destruct (Rlt_dec (z - (IZR n - 1)) (1 / 2)); [lra |].
    destruct (Rlt_dec (1 / 2) (z - (IZR n - 1))); [lia | lra].
Qed.

Lemma pow2_2 : B64.pow2 2 = 4.
Proof. rewrite pow2_IZR by lia. reflexivity. Qed.

Lemma pow2_3 : B64.pow2 3 = 8.
Proof. rewrite pow2_IZR by lia. reflexivity. Qed.

Lemma pow2_50 : B64.pow2 50 = 1125899906842624.
Proof. rewrite pow2_IZR by lia. reflexivity. Qed.

Lemma pow2_m50 : B64.pow2 (-50) = / 1125899906842624.
Proof.
  change (B64.pow2 (-50)) with (B64.pow2 (Z.opp 50)).
  rewrite pow2_neg, pow2_50. reflexivity.
Qed.

Lemma pow2_m55 : B64.pow2 (-55) = / 36028797018963968.
Proof.
  change (B64.pow2 (-55)) with (B64.pow2 (Z.opp 55)).
  rewrite pow2_neg, pow2_IZR by lia. reflexivity.
Qed.

(** The binary64 number nearest to 1/6, and its product with 30. *)
Lemma sixth_is_float : B64.is_float (6004799503160661 / 36028797018963968).
Proof.
  unfold B64.is_float.
  replace (6004799503160661 / 36028797018963968)
    with (IZR 6004799503160661 * B64.pow2 (-55)) by (rewrite pow2_m55; lra).
  apply round_exact; [reflexivity | lia].
Qed.

Lemma sixth_times_30 : B64.mul (6004799503160661 / 36028797018963968) 30 = 5.
Proof.
  unfold B64.mul.
  rewrite (round_eval _ 2);
    [| change (2 + 1)%Z with 3%Z;
       rewrite pow2_2, pow2_3, Rabs_right by lra; split; lra | lia].
  change (52 - 2)%Z with 50%Z. change (2 - 52)%Z with (-50)%Z.
  rewrite pow2_50, pow2_m50.
  rewrite (rne_near _ 5629499534213120) by (split; lra).
  lra.
Qed.

Lemma kernel_b64_formula (x : R) :
  0 <= x ->
  make_odd (Z.max 3 (Py.int (B64.mul x 30) + 1)) = kernel_size_formula_b64 x.
Proof.
  intros Hx. unfold kernel_size_formula_b64.
  rewrite make_odd_even, int_nonneg by (apply mul_nonneg; lra). reflexivity.
Qed.

Lemma kernel_b64_mono (x y : R) :
  x <= y ->
  (make_odd (Z.max 3 (Py.int (B64.mul x 30) + 1))
   <= make_odd (Z.max 3 (Py.int (B64.mul y 30) + 1)))%Z.
Proof.
  intros Hxy. apply make_odd_mono.
  assert (Py.int (B64.mul x 30) <= Py.int (B64.mul y 30))%Z.
  { apply int_mono, mul_mono_l; [lra | exact Hxy]. }
  lia.
Qed.

End KernelB64.

(** C3, as the code computes it. On [0, 1] the kernel size both blur
    methods use is [max(3, floor(p) + 1)] moved up to the next odd value
    when even, [p] being the binary64 product [intensity * 30]; it is
    odd, at least 3, and non-decreasing in the intensity. *)
Theorem kernel_size_matches_rounded_formula (x y : R) :
  0 <= x -> x <= y -> y <= 1 ->
  progressive_blur_kernel_b64 x = kernel_size_formula_b64 x /\
  motion_blur_kernel_b64 x = kernel_size_formula_b64 x /\
  Z.odd (progressive_blur_kernel_b64 x) = true /\
  Z.odd (motion_blur_kernel_b64 x) = true /\
  (3 <= progressive_blur_kernel_b64 x)%Z /\
  (3 <= motion_blur_kernel_b64 x)%Z /\
  (progressive_blur_kernel_b64 x <= progressive_blur_kernel_b64 y)%Z /\
  (motion_blur_kernel_b64 x <= motion_blur_kernel_b64 y)%Z.
Proof.
  intros Hx Hxy Hy.
  unfold progressive_blur_kernel_b64, motion_blur_kernel_b64,
    motion_blur_kernel_size_b64.
  pose proof (make_odd_bounds (Z.max 3 (Py.int (B64.mul x 30) + 1))) as Hb.
  repeat split; try (now apply kernel_b64_formula);
    try apply make_odd_odd; try lia; now apply kernel_b64_mono.
Qed.

Lemma kernel_size_matches_rounded_formula_witness :
  (progressive_blur_kernel_b64 (1 / 10) <= progressive_blur_kernel_b64 (1 / 2))%Z.
Proof.
  apply (kernel_size_matches_rounded_formula (1 / 10) (1 / 2)); lra.
Defined.

(** C3, the claim as worded. At the binary64 number nearest to 1/6, an
    intensity in [0, 1], the exact product with 30 is below 5 and the
    formula [max(3, floor(intensity*30) + 1)], made odd, gives 5; the
    code's product is rounded to 5 and both blur methods use 7. *)
Lemma kernel_size_not_the_exact_formula :
  let x := 6004799503160661 / 36028797018963968 in
  B64.is_float x /\ 0 <= x <= 1 /\
  progressive_blur_kernel_b64 x = 7%Z /\
  motion_blur_kernel_b64 x = 7%Z /\
  kernel_size_formula x = 5%Z.
Proof.
  intros x. unfold x.
  split; [exact sixth_is_float |]. split; [lra |].
  unfold progressive_blur_kernel_b64, motion_blur_kernel_b64,
    motion_blur_kernel_size_b64, kernel_size_formula.
  rewrite sixth_times_30, (int_IZR 5).
  rewrite (Int_part_unique _ 4) by (split; lra).
  repeat split.
Qed.

(* ================================================================= *)
(** * The whip-pan offset in binary64 *)

Section OffsetB64.

Lemma whip_pan_offset_close (extent : Z) (p : R) (sign : Z) :
  0 <= p <= 1 -> (0 <= extent < 2 ^ 52)%Z -> sign = 1%Z \/ sign = (-1)%Z ->
  Rabs (IZR (whip_pan_offset_b64 extent p sign) - IZR extent * p * IZR sign) < 1 /\
  (- extent <= whip_pan_offset_b64 extent p sign <= extent)%Z /\
  (0 <= whip_pan_offset_b64 extent p sign * sign)%Z.
Proof.
  intros [Hp0 Hp1] [He0 He1] Hsign.
  assert (H52 : (2 ^ 52 < 2 ^ 53)%Z) by reflexivity.
  unfold whip_pan_offset_b64.
  rewrite (of_int_exact extent) by lia.
  rewrite (of_int_exact sign) by (destruct Hsign as [-> | ->]; reflexivity).
  set (x := IZR extent * p).
  assert (HE : 0 <= IZR extent) by (apply IZR_le; lia).
  assert (Hx : 0 <= x <= IZR extent) by (unfold x; split; nra).
  set (n := Int_part x).
  destruct (Int_part_bounds x) as [Hn0 Hn1]. fold n in Hn0, Hn1.
  assert (Hn : (0 <= n <= extent)%Z).
  { split.
    - unfold n. rewrite <- (Int_part_IZR 0). apply Int_part_mono. lra.
    - unfold n. rewrite <- (Int_part_IZR extent). apply Int_part_mono. lra. }
  set (r1 := B64.mul (IZR extent) p).
  assert (Hr1 : IZR n <= r1 <= IZR (n + 1) /\ r1 <= IZR extent).
  { unfold r1, B64.mul. fold x. split.
    - apply round_between_ints; [lia | lia |]. rewrite plus_IZR. lra.
    - rewrite <- (round_int extent) by lia. apply round_mono. lra. }
  set (q := B64.round r1).
  assert (Hq : IZR n <= q <= IZR (n + 1) /\ q <= IZR extent).
  { unfold q. split.
    - apply round_between_ints; [lia | lia | tauto].
    - rewrite <- (round_int extent) by lia. apply round_mono. tauto. }
  assert (Hqn : q = IZR (n + 1) -> IZR n < x).
  { intros Hq1. destruct (Req_dec x (IZR n)) as [Hxn | Hxn]; [| lra].
    exfalso. unfold q, r1, B64.mul in Hq1. fold x in Hq1.
    rewrite Hxn, !(round_int n) in Hq1 by lia.
    apply eq_IZR in Hq1. lia. }
  assert (Hint : Rabs (IZR (Py.int q) - x) < 1 /\ (0 <= Py.int q <= extent)%Z).
  { rewrite plus_IZR in Hq, Hqn.
    destruct (Req_dec q (IZR n + 1)) as [Hq1 | Hq1].
    - rewrite Hq1, <- plus_IZR, int_IZR, plus_IZR. split.
      + specialize (Hqn Hq1). rewrite Rabs_right by lra. lra.
      + split; [lia |]. apply le_IZR. rewrite plus_IZR. lra.
    - rewrite (int_range q n) by (try lia; lra). split.
      + rewrite Rabs_left1 by lra. lra.
      + lia. }
  destruct Hint as [Hclose Hrange].
  destruct Hsign as [-> | ->].
  - unfold B64.mul. replace (r1 * 1) with r1 by ring. fold q.
    replace (x * 1) with x by ring. split; [exact Hclose | lia].
  - unfold B64.mul. replace (r1 * -1) with (- r1) by ring.
    rewrite round_opp. fold q. rewrite int_opp, opp_IZR.
    replace (- IZR (Py.int q) - x * -1) with (- (IZR (Py.int q) - x)) by ring.
    rewrite Rabs_Ropp. split; [exact Hclose | lia].
Qed.

End OffsetB64.

(** C7. In the whip pan the outgoing frame is rolled by a whole number
    of samples that is the product [extent * progress * sign] to within
    less than one sample, and the incoming frame by that offset minus
    [extent]: along the columns with the output width as extent for
    right (sign +1) and left (sign -1), along the rows with the output
    height for down (sign +1) and up (sign -1).  The roll wraps around:
    index [i] of the axis lands on [(i + shift) mod n]. *)
Theorem whip_pan_shifts (self : Engine) (direction : string)
    (progress : R) (blurred_frame1 blurred_frame2 : Frame) :
  0 <= progress <= 1 ->
  (0 <= output_width self < 2 ^ 52)%Z ->
  (0 <= output_height self < 2 ^ 52)%Z ->
  let shifted (extent sign : Z) ax :=
    exists offset : Z,
      whip_pan_translate_b64 self direction progress
        blurred_frame1 blurred_frame2
      = (np.roll blurred_frame1 offset ax,
         np.roll blurred_frame2 (offset - extent) ax) /\
      Rabs (IZR offset - IZR extent * progress * IZR sign) < 1 in
  (direction = "right"%string -> shifted (output_width self) 1%Z np.Axis1) /\
  (direction = "left"%string -> shifted (output_width self) (-1)%Z np.Axis1) /\
  (direction = "down"%string -> shifted (output_height self) 1%Z np.Axis0) /\
  (direction = "up"%string -> shifted (output_height self) (-1)%Z np.Axis0) /\
  (forall (f : Frame) (shift : Z) (y : nat),
      (y < length f)%nat ->
      nth (np.wrap_index (length f) y shift) (np.roll f shift np.Axis0) []
      = nth y f []) /\
  (forall (f : Frame) (shift : Z) (y x : nat),
      (y < length f)%nat -> (x < length (nth y f []))%nat ->
      nth (np.wrap_index (length (nth y f [])) x shift)
          (nth y (np.roll f shift np.Axis1) []) []
      = nth x (nth y f []) []).
Proof.
  intros Hp HW HH shifted. unfold shifted, whip_pan_translate_b64.
  split; [| split; [| split; [| split; [| split]]]].
  - intros ->. eexists. split; [reflexivity |].
    now apply whip_pan_offset_close; [| | left].
  - intros ->. eexists. split; [reflexivity |].
    now apply whip_pan_offset_close; [| | right].
  - intros ->. eexists. split; [reflexivity |].
    now apply whip_pan_offset_close; [| | left].
  - intros ->. eexists. split; [reflexivity |].
    now apply whip_pan_offset_close; [| | right].
  - intros f shift y Hy. simpl. now apply roll_list_nth.
  - intros f shift y x Hy Hx. simpl.
    etransitivity; [| exact (roll_list_nth (nth y f []) shift x [] Hx)].
    f_equal.
    exact (nth_map_lt (fun row => np.roll_list row shift) f y [] [] Hy).
Qed.

Lemma whip_pan_shifts_witness :
  let self := {| output_width := 1280; output_height := 720; fps := 30 |} in
  exists offset : Z,
    whip_pan_translate_b64 self "left" (7 / 10) [[[1; 2; 3]]]%Z [[[4; 5; 6]]]%Z
    = (np.roll [[[1; 2; 3]]]%Z offset np.Axis1,
       np.roll [[[4; 5; 6]]]%Z (offset - 1280) np.Axis1) /\
    Rabs (IZR offset - IZR 1280 * (7 / 10) * IZR (-1)) < 1.
Proof.
  intros self.
  destruct (whip_pan_shifts self "left" (7 / 10) [[[1; 2; 3]]]%Z [[[4; 5; 6]]]%Z)
    as (_ & Hleft & _); try (simpl; lia); try lra.
  apply Hleft. reflexivity.
Defined.

(* ================================================================= *)
(** * The easing function in binary64 *)

Section EaseB64.

Lemma pow2_m1 : B64.pow2 (-1) = / 2.
Proof.
  change (B64.pow2 (-1)) with (B64.pow2 (Z.opp 1)).
  rewrite pow2_neg, pow2_IZR by lia. reflexivity.
Qed.

Lemma pow2_0 : B64.pow2 0 = 1.
Proof. reflexivity. Qed.

Lemma pow2_53 : B64.pow2 53 = 9007199254740992.
Proof. rewrite pow2_IZR by lia. reflexivity. Qed.

Lemma pow2_m51 : B64.pow2 (-51) = / 2251799813685248.
Proof.
  change (B64.pow2 (-51)) with (B64.pow2 (Z.opp 51)).
  rewrite pow2_neg, pow2_IZR by lia. reflexivity.
Qed.


Lemma pow2_m53 : B64.pow2 (-53) = / 9007199254740992.
Proof.
  change (B64.pow2 (-53)) with (B64.pow2 (Z.opp 53)).
  rewrite pow2_neg, pow2_IZR by lia. reflexivity.
Qed.



(** [PI] to nineteen digits, from Machin's series for 2, 3 and 7. *)
Lemma PI_bounds :
  3141592653589793235 / 1000000000000000000 < PI
  < 3141592653589793239 / 1000000000000000000.
Proof.
  pose proof (PI_2_3_7_ineq 9) as [Hlo Hhi].
  unfold PI_2_3_7_tg, Ratan_seq, tg_alt in Hlo, Hhi.
  simpl in Hlo, Hhi. split; lra.
Qed.


Lemma round_1 : B64.round 1 = 1.
Proof. apply (round_int 1). reflexivity. Qed.

Lemma round_2 : B64.round 2 = 2.
Proof. apply (round_int 2). reflexivity. Qed.

Lemma pi_is_float : B64.is_float B64.pi.
Proof.
  unfold B64.is_float, B64.pi.
  replace (7074237752028440 / 2251799813685248)
    with (IZR 7074237752028440 * B64.pow2 (-51)) by (rewrite pow2_m51; lra).
  apply round_exact; [reflexivity | lia].
Qed.




Lemma round_below_1_near :
  B64.round (1 - / 1152921504606846976) = 1.
Proof.
  rewrite (round_eval _ (-1));
    [| change (-1 + 1)%Z with 0%Z;
       rewrite pow2_m1, pow2_0, Rabs_right by lra; split; lra | lia].
  change (52 - -1)%Z with 53%Z. change (-1 - 52)%Z with (-53)%Z.
  rewrite pow2_53, pow2_m53.
  rewrite (rne_near _ 9007199254740992) by (split; lra).
  lra.
Qed.


Lemma cos_pi_bounds :
  -1 <= cos B64.pi <= - (1 - / 1152921504606846976).
Proof.
  pose proof PI_bounds as [Hlo Hhi].
  split; [apply COS_bound |].
  set (d := PI - B64.pi).
  assert (Hd : 0 < d <= 2 / 10000000000000000).
  { unfold d, B64.pi. split; lra. }
  replace B64.pi with (- d + PI) by (unfold d; ring).
  rewrite neg_cos, cos_neg.
  replace d with (2 * (d / 2)) by field.
  rewrite cos_2a_sin.
  pose proof (sin_lt_x (d / 2) ltac:(lra)) as Hs.
  assert (H0 : 0 <= sin (d / 2)) by (apply sin_ge_0; lra).
  assert (Hsq : sin (d / 2) * sin (d / 2) <= d / 2 * (d / 2)) by nra.
  assert (Hd2 : d / 2 * (d / 2) <= / 1152921504606846976 / 2) by nra.
  lra.
Qed.

Lemma ease_b64_0 : cosine_interpolation_b64 0 = 0.
Proof.
  unfold cosine_interpolation_b64, B64.div, B64.sub, B64.cos, B64.mul.
  rewrite Rmult_0_l, round_0, cos_0, round_1.
  replace (1 - 1) with 0 by ring. rewrite round_0.
  replace (0 / 2) with 0 by lra. apply round_0.
Qed.

Lemma ease_b64_1 : cosine_interpolation_b64 1 = 1.
Proof.
  unfold cosine_interpolation_b64, B64.div, B64.sub, B64.cos, B64.mul.
  rewrite Rmult_1_l, pi_is_float.
  assert (Hc : B64.round (cos B64.pi) = -1).
  { destruct cos_pi_bounds as [Hlo Hhi].
    pose proof (round_mono _ _ Hlo) as H1. pose proof (round_mono _ _ Hhi) as H2.
    rewrite round_opp, round_below_1_near in H2.
    rewrite (round_int (-1)) in H1 by reflexivity. lra. }
  rewrite Hc. replace (1 - -1) with 2 by ring. rewrite round_2.
  replace (2 / 2) with 1 by lra. apply round_1.
Qed.


Lemma ease_b64_mono (x y : R) :
  0 <= x -> x <= y -> y <= 1 ->
  cosine_interpolation_b64 x <= cosine_interpolation_b64 y.
Proof.
  intros Hx Hxy Hy.
  unfold cosine_interpolation_b64, B64.div, B64.sub, B64.cos, B64.mul.
  pose proof PI_bounds as [HPI _].
  assert (Hpi : 0 <= B64.pi <= PI) by (unfold B64.pi; split; lra).
  assert (Ha : 0 <= B64.round (x * B64.pi)) by (apply round_nonneg; nra).
  assert (Hab : B64.round (x * B64.pi) <= B64.round (y * B64.pi))
    by (apply round_mono; nra).
  assert (Hb : B64.round (y * B64.pi) <= PI).
  { pose proof pi_is_float as Hf. unfold B64.is_float in Hf.
    apply Rle_trans with (B64.round B64.pi); [apply round_mono; nra |].
    rewrite Hf. tauto. }
  assert (Hcos : cos (B64.round (y * B64.pi)) <= cos (B64.round (x * B64.pi))).
  { apply cos_decr_1; lra. }
  apply round_mono.
  assert (Hr : B64.round (cos (B64.round (y * B64.pi)))
               <= B64.round (cos (B64.round (x * B64.pi))))
    by now apply round_mono.
  assert (Hsub : B64.round (1 - B64.round (cos (B64.round (x * B64.pi))))
                 <= B64.round (1 - B64.round (cos (B64.round (y * B64.pi)))))
    by (apply round_mono; lra).
  lra.
Qed.

End EaseB64.




(* ================================================================= *)
(** * The overlay and the kernel, the range of the offset *)

Section OverlayB64.

Lemma pow2_m7 : B64.pow2 (-7) = / 128.
Proof.
  change (B64.pow2 (-7)) with (B64.pow2 (Z.opp 7)).
  rewrite pow2_neg, pow2_IZR by lia. reflexivity.
Qed.

(** The binary64 product with 30 of an intensity from 1/10 to 133/1000
    is at least 3 and below 4. *)
Lemma product_between_3_and_4 (x : R) :
  1 / 10 <= x <= 133 / 1000 -> 3 <= B64.mul x 30 <= 511 / 128.
Proof.
  intros [Hlo Hhi]. unfold B64.mul. split.
  - rewrite <- (round_int 3) by reflexivity. apply round_mono. lra.
  - replace (511 / 128) with (IZR 511 * B64.pow2 (-7)) by (rewrite pow2_m7; lra).
    rewrite <- (round_exact 511 (-7)) by (try reflexivity; lia).
    apply round_mono. rewrite pow2_m7. lra.
Qed.

Lemma rne_tie (n : Z) :
  B64.rne (IZR n + 1 / 2) = if Z.even n then n else (n + 1)%Z.
Proof.
  unfold B64.rne.
  rewrite (Int_part_unique (IZR n + 1 / 2) n) by lra.
  destruct (Rlt_dec (IZR n + 1 / 2 - IZR n) (1 / 2)); [lra |].
  destruct (Rlt_dec (1 / 2) (IZR n + 1 / 2 - IZR n)); [lra | reflexivity].
Qed.

Lemma pow2_9 : B64.pow2 9 = 512.
Proof. rewrite pow2_IZR by lia. reflexivity. Qed.

Lemma pow2_10 : B64.pow2 10 = 1024.
Proof. rewrite pow2_IZR by lia. reflexivity. Qed.

Lemma pow2_43 : B64.pow2 43 = 8796093022208.
Proof. rewrite pow2_IZR by lia. reflexivity. Qed.

Lemma pow2_m43 : B64.pow2 (-43) = / 8796093022208.
Proof.
  change (B64.pow2 (-43)) with (B64.pow2 (Z.opp 43)).
  rewrite pow2_neg, pow2_43. reflexivity.
Qed.

(** The binary64 number nearest to 7/10 is below 7/10; its product with
    1280 falls half-way between two floats and is rounded up to 896. *)
Lemma seven_tenths_is_float :
  B64.is_float (6305039478318694 / 9007199254740992).
Proof.
  unfold B64.is_float.
  replace (6305039478318694 / 9007199254740992)
    with (IZR 6305039478318694 * B64.pow2 (-53)) by (rewrite pow2_m53; lra).
  apply round_exact; [reflexivity | lia].
Qed.

Lemma width_times_seven_tenths :
  B64.mul 1280 (6305039478318694 / 9007199254740992) = 896.
Proof.
  unfold B64.mul.
  rewrite (round_eval _ 9);
    [| change (9 + 1)%Z with 10%Z;
       rewrite pow2_9, pow2_10, Rabs_right by lra; split; lra | lia].
  change (52 - 9)%Z with 43%Z. change (9 - 52)%Z with (-43)%Z.
  rewrite pow2_43, pow2_m43.
  replace (1280 * (6305039478318694 / 9007199254740992) * 8796093022208)
    with (IZR 7881299347898367 + 1 / 2) by lra.
  rewrite rne_tie. change (Z.even 7881299347898367) with false.
  cbv iota. change (7881299347898367 + 1)%Z with 7881299347898368%Z. lra.
Qed.

Lemma offset_left_is_minus_right (extent : Z) (p : R) :
  whip_pan_offset_b64 extent p (-1) = (- whip_pan_offset_b64 extent p 1)%Z.
Proof.
  unfold whip_pan_offset_b64.
  rewrite (of_int_exact 1), (of_int_exact (-1)) by reflexivity.
  unfold B64.mul at 1 3.
  replace (B64.mul (B64.of_int extent) p * -1)
    with (- (B64.mul (B64.of_int extent) p * 1)) by ring.
  rewrite round_opp. apply int_opp.
Qed.

End OverlayB64.

(** X4. The kernel size the whip-pan and progressive-blur overlays
    print, [max(3, int(intensity*30) + 1)], is the size the filter runs
    with only when it is odd; when it is even the filter runs with one
    more.  For the intensities from 1/10 to 133/1000 the overlay says 4
    and the kernel is 5, with the product rounded as the code rounds
    it. *)
Theorem overlay_kernel_size_differs (x : R) :
  (Z.odd (motion_blur_kernel_size_b64 x) = true ->
     motion_blur_kernel_b64 x = motion_blur_kernel_size_b64 x) /\
  (Z.odd (motion_blur_kernel_size_b64 x) = false ->
     motion_blur_kernel_b64 x = (motion_blur_kernel_size_b64 x + 1)%Z) /\
  (1 / 10 <= x <= 133 / 1000 ->
     motion_blur_kernel_size_b64 x = 4%Z /\ motion_blur_kernel_b64 x = 5%Z /\
     progressive_blur_kernel_b64 x = 5%Z).
Proof.
  unfold motion_blur_kernel_b64, progressive_blur_kernel_b64.
  split; [| split].
  - intros Ho. rewrite make_odd_even, <- Z.negb_odd, Ho. reflexivity.
  - intros Ho. rewrite make_odd_even, <- Z.negb_odd, Ho. reflexivity.
  - intros Hx. unfold motion_blur_kernel_size_b64.
    destruct (product_between_3_and_4 x Hx) as [Hlo Hhi].
    rewrite (int_range (B64.mul x 30) 3) by (try lia; lra).
    repeat split.
Qed.

Lemma overlay_kernel_size_differs_witness :
  motion_blur_kernel_size_b64 (1 / 8) = 4%Z /\
  motion_blur_kernel_b64 (1 / 8) = 5%Z /\
  progressive_blur_kernel_b64 (1 / 8) = 5%Z.
Proof.
  apply (overlay_kernel_size_differs (1 / 8)). lra.
Defined.

(** X14. For a progress in [0, 1] the horizontal whip-pan offset stays
    within one frame width and on the side of the direction: between 0
    and the width for "right", between minus the width and 0 for "left",
    and the offset for "left" is the opposite of the one for "right".
    The offset is not always the exact product cut toward zero: at the
    float nearest to 7/10 and a width of 1280 the exact product is below
    896 and the offset is 896. *)
Theorem whip_pan_offset_bounds (self : Engine) (progress : R) (b1 b2 : Frame) :
  (0 <= progress <= 1 -> (0 <= output_width self < 2 ^ 52)%Z ->
   exists right_offset left_offset,
     whip_pan_translate_b64 self "right" progress b1 b2
     = (np.roll b1 right_offset np.Axis1,
        np.roll b2 (right_offset - output_width self) np.Axis1) /\
     whip_pan_translate_b64 self "left" progress b1 b2
     = (np.roll b1 left_offset np.Axis1,
        np.roll b2 (left_offset - output_width self) np.Axis1) /\
     (0 <= right_offset <= output_width self)%Z /\
     (- output_width self <= left_offset <= 0)%Z /\
     left_offset = (- right_offset)%Z) /\
  (let p := 6305039478318694 / 9007199254740992 in
   B64.is_float p /\ 0 <= p <= 1 /\
   IZR 1280 * p < 896 /\
   whip_pan_offset_b64 1280 p 1 = 896%Z).
Proof.
  split.
  - intros Hp HW.
    exists (whip_pan_offset_b64 (output_width self) progress 1),
           (whip_pan_offset_b64 (output_width self) progress (-1)).
    split; [reflexivity |]. split; [reflexivity |].
    destruct (whip_pan_offset_close (output_width self) progress 1 Hp HW
                (or_introl eq_refl)) as (_ & Hr & Hs).
    rewrite offset_left_is_minus_right. lia.
  - intros p. unfold p.
    split; [exact seven_tenths_is_float |]. split; [lra |]. split; [lra |].
    unfold whip_pan_offset_b64.
    rewrite (of_int_exact 1280), (of_int_exact 1) by reflexivity.
    rewrite width_times_seven_tenths. unfold B64.mul.
    replace (896 * 1) with 896 by ring.
    rewrite (round_int 896) by reflexivity. apply int_IZR.
Qed.

Lemma whip_pan_offset_bounds_witness :
  let self := {| output_width := 1280; output_height := 720; fps := 30 |} in
  exists right_offset left_offset,
    whip_pan_translate_b64 self "right" (1 / 89) [] []
    = (np.roll [] right_offset np.Axis1,
       np.roll [] (right_offset - output_width self) np.Axis1) /\
    whip_pan_translate_b64 self "left" (1 / 89) [] []
    = (np.roll [] left_offset np.Axis1,
       np.roll [] (left_offset - output_width self) np.Axis1) /\
    (0 <= right_offset <= output_width self)%Z /\
    (- output_width self <= left_offset <= 0)%Z /\
    left_offset = (- right_offset)%Z.
Proof.
  intros self.
  apply (proj1 (whip_pan_offset_bounds self (1 / 89) [] []));
    [lra | simpl; lia].
Defined.

(** X16. For an intensity in [0, 1], the range the dip-and-recover
    curve produces, [apply_progressive_blur] hands [cv2.GaussianBlur] a
    kernel size that is positive and odd, whether the product with 30 is
    taken exactly or rounded; the call is accepted and the frame keeps
    its size. *)
Theorem apply_progressive_blur_accepted {lib : Cv2} {laws : Cv2Spec lib}
    (h w c : nat) (frame : Frame) (blur_intensity : R) :
  0 <= blur_intensity <= 1 ->
  has_shape h w c frame ->
  (0 < progressive_blur_kernel blur_intensity)%Z /\
  Z.odd (progressive_blur_kernel blur_intensity) = true /\
  (0 < progressive_blur_kernel_b64 blur_intensity)%Z /\
  Z.odd (progressive_blur_kernel_b64 blur_intensity) = true /\
  exists blurred,
    apply_progressive_blur frame blur_intensity = Py.Ok blurred /\
    has_shape h w c blurred.
Proof.
  intros _ Hf.
  destruct (progressive_blur_kernel_ge_3 blur_intensity) as [Hge Hodd].
  split; [lia |]. split; [exact Hodd |].
  unfold progressive_blur_kernel_b64.
  pose proof (make_odd_bounds (Z.max 3 (Py.int (B64.mul blur_intensity 30) + 1))).
  split; [lia |]. split; [apply make_odd_odd |].
  now apply apply_progressive_blur_ok.
Qed.

Lemma apply_progressive_blur_accepted_witness :
  exists blurred,
    apply_progressive_blur (lib := plain_cv2) [[[1; 2; 3]]]%Z (3 / 4)
    = Py.Ok blurred /\
    has_shape 1 1 3 blurred.
Proof.
  apply (apply_progressive_blur_accepted (laws := plain_cv2_spec)
           1 1 3 [[[1; 2; 3]]]%Z (3 / 4)); [lra |].
  split; [reflexivity | repeat constructor].
Defined.

(* ================================================================= *)
(** * The blend weights *)

Section Weights.

Lemma ease_b64_unit (p : R) :
  0 <= p <= 1 -> 0 <= cosine_interpolation_b64 p <= 1.
Proof.
  intros [Hp0 Hp1]. split.
  - rewrite <- ease_b64_0. apply ease_b64_mono; lra.
  - rewrite <- ease_b64_1. apply ease_b64_mono; lra.
Qed.

End Weights.

(** X1. For a progress in [0, 1] the two weights
    [enhanced_blend_frames] hands to [cv2.addWeighted], the eased value
    [smooth_alpha] and [1.0 - smooth_alpha], both lie in [0, 1], with
    every operation rounded as the code rounds it. *)
Theorem blend_weights_in_unit_interval (progress : R) :
  0 <= progress <= 1 ->
  0 <= cosine_interpolation_b64 progress <= 1 /\
  0 <= B64.sub 1 (cosine_interpolation_b64 progress) <= 1.
Proof.
  intros Hp. destruct (ease_b64_unit progress Hp) as [H0 H1].
  split; [split; assumption |].
  unfold B64.sub. split.
  - apply round_nonneg. lra.
  - apply (Rle_trans _ (B64.round 1)); [apply round_mono; lra |].
    rewrite round_1. lra.
Qed.

Lemma blend_weights_in_unit_interval_witness :
  0 <= cosine_interpolation_b64 (1 / 3) <= 1 /\
  0 <= B64.sub 1 (cosine_interpolation_b64 (1 / 3)) <= 1.
Proof.
  apply (blend_weights_in_unit_interval (1 / 3)). lra.
Defined.
